(** * Cargo allocation model of [wfp1040.py]

    The script builds a mixed-integer linear model with PuLP, hands it to
    the CBC solver and reads the allocation back with NumPy.  This file
    embeds the model construction (lines 17-62) and the solution extraction
    (lines 68-70) and proves properties of the model the script builds.
    The printing of the report (lines 72-82) is left out.

    Numbers: Python floats are idealised as exact rationals ([Q]); equality
    of computed quantities is [Qeq] ([==]).  Rounding and overflow are not
    modelled: where a product or sum of the data leaves the range of a
    float, Python computes inf and PuLP refuses the constant, so what is
    proved of a model that is built reads, for the script, "when the model
    is built".  Lists are Python lists, an
    out-of-range subscript raises [IndexError].  PuLP expressions are kept
    as the script writes them (an expression tree) and given their meaning
    by [eval] under an assignment of values to the variables. *)

From Stdlib Require Import Ascii String Decimal DecimalString DecimalNat.
From Stdlib Require Import List Arith Lia ZArith QArith Qabs Lqa Bool Setoid Morphisms.
Import ListNotations.

Local Open Scope Q_scope.

(** ** Python exceptions and fallible computations *)

Inductive exn : Type :=
| IndexError   (* list subscript out of range *)
| AxisError    (* numpy: axis out of bounds for the array's dimension *)
| ValueError.  (* numpy: operands could not be broadcast together *)

Inductive result (A : Type) : Type :=
| Ok (a : A)
| Raise (e : exn).

Arguments Ok {A} a.
Arguments Raise {A} e.

Definition bind {A B : Type} (c : result A) (k : A -> result B) : result B :=
  match c with
  | Ok a => k a
  | Raise e => Raise e
  end.

Notation "x <- c ;; k" := (bind c (fun x => k))
  (at level 61, c at next level, right associativity).

(** A list comprehension [[f a for a in l]] whose body may raise. *)
Fixpoint mapM {A B : Type} (f : A -> result B) (l : list A) : result (list B) :=
  match l with
  | [] => Ok []
  | a :: l' =>
      b <- f a ;;
      bs <- mapM f l' ;;
      Ok (b :: bs)
  end.

(** [l[j]] for a non-negative [j]. *)
Definition subscript (l : list Q) (j : nat) : result Q :=
  match nth_error l j with
  | Some v => Ok v
  | None => Raise IndexError
  end.

(** [range(k)] *)
Definition range (k : nat) : list nat := seq 0 k.

(** Python's [sum]: a left fold starting from [0]. *)
Definition Qsum (l : list Q) : Q := fold_left Qplus l 0.

(** ** PuLP variables, expressions, constraints *)

Inductive var : Type :=
| X (i j : nat)   (* x_i_j : tons of site j carried by transporter i *)
| Y (i j : nat)   (* y_i_j : transporter i takes part at site j *)
| U (i : nat)     (* u_i : tonnage deviation *)
| V (i : nat).    (* v_i : revenue deviation *)

Inductive LpCategory : Type := LpContinuous | LpInteger.

Record LpVariable : Type := mkVar {
  name : var;
  lowBound : option Q;
  upBound : option Q;
  cat : LpCategory
}.

(** [LpVariable(name, lowBound=0, cat="Continuous")] *)
Definition continuous_var (v : var) : LpVariable :=
  mkVar v (Some 0) None LpContinuous.

(** [LpVariable(name, cat="Binary")]: PuLP stores an integer variable with
    bounds 0 and 1. *)
Definition binary_var (v : var) : LpVariable :=
  mkVar v (Some 0) (Some 1) LpInteger.

#[warnings="-register-all"]
Inductive LpExpr : Type :=
| EVar (v : var)
| EConst (c : Q)
| EScale (c : Q) (e : LpExpr)        (* c * e *)
| EAdd (e1 e2 : LpExpr)              (* e1 + e2 *)
| ESub (e1 e2 : LpExpr)              (* e1 - e2 *)
| ENeg (e : LpExpr)                  (* -e *)
| ElpSum (es : list LpExpr).         (* pulp.lpSum(es) *)

Inductive LpSense : Type := LE | EQ | GE.

Record LpConstraint : Type := mkConstraint {
  lhs : LpExpr;
  sense : LpSense;
  rhs : LpExpr
}.

Inductive LpObjSense : Type := LpMinimize | LpMaximize.

Record LpProblem : Type := mkProblem {
  objSense : LpObjSense;
  variables : list LpVariable;
  constraints : list LpConstraint;
  objective : LpExpr
}.

(** ** Meaning of a model *)

Definition assignment : Type := var -> Q.

Fixpoint eval (a : assignment) (e : LpExpr) : Q :=
  match e with
  | EVar v => a v
  | EConst c => c
  | EScale c e' => c * eval a e'
  | EAdd e1 e2 => eval a e1 + eval a e2
  | ESub e1 e2 => eval a e1 - eval a e2
  | ENeg e' => - eval a e'
  | ElpSum es => Qsum (map (eval a) es)
  end.

Definition holds (a : assignment) (c : LpConstraint) : Prop :=
  match sense c with
  | LE => eval a (lhs c) <= eval a (rhs c)
  | EQ => eval a (lhs c) == eval a (rhs c)
  | GE => eval a (rhs c) <= eval a (lhs c)
  end.

Definition integral (q : Q) : Prop := exists z : Z, q == inject_Z z.

Definition in_bounds (a : assignment) (lv : LpVariable) : Prop :=
  match lowBound lv with Some l => l <= a (name lv) | None => True end /\
  match upBound lv with Some h => a (name lv) <= h | None => True end /\
  match cat lv with LpInteger => integral (a (name lv)) | LpContinuous => True end.

Definition feasible (prob : LpProblem) (a : assignment) : Prop :=
  Forall (in_bounds a) (variables prob) /\ Forall (holds a) (constraints prob).

Definition optimal (prob : LpProblem) (a : assignment) : Prop :=
  feasible prob a /\
  forall a', feasible prob a' ->
    match objSense prob with
    | LpMinimize => eval a (objective prob) <= eval a' (objective prob)
    | LpMaximize => eval a' (objective prob) <= eval a (objective prob)
    end.

(** ** The script *)

(** The example input block (lines 6-15): [m] sites with demands [S] and
    rates [r], [n] transporters with quota fractions [p]. *)
Record Dataset : Type := mkDataset {
  m : nat;
  n : nat;
  S : list Q;
  r : list Q;
  p : list Q
}.

(** The thresholds written in the linking constraints (lines 44-45). *)
Definition minPerAssignment : Q := 10.
Definition maxPerAssignment : Q := 50.

(** The weights of the objective (lines 60-61). *)
Definition alpha : Q := 1.
Definition beta : Q := 1 # 1000.

Section Script.
Variable ds : Dataset.

(** Lines 18-21. *)
Definition T : Q := Qsum (S ds).

Definition R : result Q :=
  terms <- mapM (fun j => Sj <- subscript (S ds) j ;;
                          rj <- subscript (r ds) j ;;
                          Ok (Sj * rj)) (range (m ds)) ;;
  Ok (Qsum terms).

Definition t : result (list Q) :=
  mapM (fun i => pi <- subscript (p ds) i ;; Ok (pi * T)) (range (n ds)).

Definition q (R' : Q) : result (list Q) :=
  mapM (fun i => pi <- subscript (p ds) i ;; Ok (pi * R')) (range (n ds)).

(** Lines 27-35. *)
Definition x : list (list LpVariable) :=
  map (fun i => map (fun j => continuous_var (X i j)) (range (m ds))) (range (n ds)).

Definition y : list (list LpVariable) :=
  map (fun i => map (fun j => binary_var (Y i j)) (range (m ds))) (range (n ds)).

Definition u : list LpVariable := map (fun i => continuous_var (U i)) (range (n ds)).
Definition v : list LpVariable := map (fun i => continuous_var (V i)) (range (n ds)).

(** Lines 38-39. *)
Definition demand_constraint (Sj : Q) (j : nat) : LpConstraint :=
  mkConstraint (ElpSum (map (fun i => EVar (X i j)) (range (n ds)))) EQ (EConst Sj).

Definition demand_constraints : result (list LpConstraint) :=
  mapM (fun j => Sj <- subscript (S ds) j ;; Ok (demand_constraint Sj j)) (range (m ds)).

(** Lines 42-45. *)
Definition link_upper (i j : nat) : LpConstraint :=
  mkConstraint (EVar (X i j)) LE (EScale maxPerAssignment (EVar (Y i j))).

Definition link_lower (i j : nat) : LpConstraint :=
  mkConstraint (EVar (X i j)) GE (EScale minPerAssignment (EVar (Y i j))).

Definition linking_constraints : list LpConstraint :=
  flat_map (fun i => flat_map (fun j => [link_upper i j; link_lower i j]) (range (m ds)))
           (range (n ds)).

(** Lines 48-51. *)
Definition total_tons (i : nat) : LpExpr :=
  ElpSum (map (fun j => EVar (X i j)) (range (m ds))).

Definition dev_above (w : var) (total : LpExpr) (target : Q) : LpConstraint :=
  mkConstraint (EVar w) GE (ESub total (EConst target)).

Definition dev_below (w : var) (total : LpExpr) (target : Q) : LpConstraint :=
  mkConstraint (EVar w) GE (ENeg (ESub total (EConst target))).

Definition tonnage_constraints (tl : list Q) : result (list LpConstraint) :=
  cs <- mapM (fun i => ti <- subscript tl i ;;
                       Ok [dev_above (U i) (total_tons i) ti;
                           dev_below (U i) (total_tons i) ti]) (range (n ds)) ;;
  Ok (concat cs).

(** Lines 54-57. *)
Definition total_rev (i : nat) : result LpExpr :=
  es <- mapM (fun j => rj <- subscript (r ds) j ;; Ok (EScale rj (EVar (X i j))))
             (range (m ds)) ;;
  Ok (ElpSum es).

Definition revenue_constraints (ql : list Q) : result (list LpConstraint) :=
  cs <- mapM (fun i => tr <- total_rev i ;;
                       qi <- subscript ql i ;;
                       Ok [dev_above (V i) tr qi; dev_below (V i) tr qi]) (range (n ds)) ;;
  Ok (concat cs).

(** Line 62. *)
Definition objective_expr : LpExpr :=
  EAdd (EScale alpha (ElpSum (map (fun i => EVar (U i)) (range (n ds)))))
       (EScale beta (ElpSum (map (fun i => EVar (V i)) (range (n ds))))).

(** Lines 17-62: the derived quantities, then the problem with its
    constraints in the order the script adds them. *)
Definition build : result LpProblem :=
  R' <- R ;;
  tl <- t ;;
  ql <- q R' ;;
  c1 <- demand_constraints ;;
  c3 <- tonnage_constraints tl ;;
  c4 <- revenue_constraints ql ;;
  Ok (mkProblem LpMinimize
                (concat x ++ concat y ++ u ++ v)
                (c1 ++ linking_constraints ++ c3 ++ c4)
                objective_expr).

(** ** Solving and reading the solution back (lines 65-70) *)

(** [pulp.value] of each variable after the solve. *)
Variable value : assignment.

Definition x_sol : list (list Q) :=
  map (fun i => map (fun j => value (X i j)) (range (m ds))) (range (n ds)).
End Script.

(** [a.sum(axis=1)]: an empty outer list makes a one-dimensional array,
    which has no axis 1. *)
Definition sum_axis1 (a : list (list Q)) : result (list Q) :=
  match a with
  | [] => Raise AxisError
  | _ => Ok (map Qsum a)
  end.

(** [a * np.array(rv)] for [a] of shape (rows, cols) and [rv] of shape
    (len rv,): NumPy broadcasts when the trailing dimensions are equal or
    one of them is 1. *)
Definition mul_broadcast (a : list (list Q)) (cols : nat) (rv : list Q)
  : result (list (list Q)) :=
  if Nat.eqb cols (length rv) then
    Ok (map (fun row => map (fun '(xv, rj) => xv * rj) (combine row rv)) a)
  else if Nat.eqb (length rv) 1 then
    Ok (map (fun row => map (fun xv => xv * hd 0 rv) row) a)
  else if Nat.eqb cols 1 then
    Ok (map (fun row => map (fun rj => hd 0 row * rj) rv) a)
  else Raise ValueError.

Record AllocationResult : Type := mkResult {
  res_x_sol : list (list Q);
  tons_assigned : list Q;
  revenue_assigned : list Q
}.

(** Lines 68-70. *)
Definition extract (ds : Dataset) (value : assignment) : result AllocationResult :=
  let xs := x_sol ds value in
  tons <- sum_axis1 xs ;;
  prod <- mul_broadcast xs (m ds) (r ds) ;;
  rev <- sum_axis1 prod ;;
  Ok (mkResult xs tons rev).

(** PuLP's solution status, the integer [prob.solve] returns. *)
Inductive LpStatus : Type :=
| LpStatusOptimal | LpStatusNotSolved | LpStatusInfeasible
| LpStatusUnbounded | LpStatusUndefined.

(** The solver is an external program: any function from the problem to a
    status and the values it leaves in the variables. *)
Definition Solver : Type := LpProblem -> LpStatus * assignment.

(** The whole script: build, solve (line 65 drops the status), extract. *)
Definition script (solver : Solver) (ds : Dataset) : result AllocationResult :=
  prob <- build ds ;;
  let '(_, value) := solver prob in
  extract ds value.

(** The script again, with the calls of the solver it makes on the way. *)
Inductive event : Type :=
| Solve (prob : LpProblem).

Definition run (solver : Solver) (ds : Dataset)
  : list event * result AllocationResult :=
  match build ds with
  | Raise e => ([], Raise e)
  | Ok prob =>
      let '(_, value) := solver prob in
      ([Solve prob], extract ds value)
  end.

(** The script's own example data (lines 6-15). *)
Definition example : Dataset :=
  mkDataset 8 18
    [196562 # 1000; 495076 # 1000; 254053 # 1000; 103664 # 1000;
     149648 # 1000; 343098 # 1000; 0; 147738 # 1000]
    [5044 # 100; 4888 # 100; 4368 # 100; 4420 # 100;
     2652 # 100; 3380 # 100; 2184 # 100; 1820 # 100]
    [68 # 1000; 49 # 1000; 67 # 1000; 41 # 1000; 53 # 1000; 69 # 1000;
     47 # 1000; 47 # 1000; 44 # 1000; 37 # 1000; 55 # 1000; 48 # 1000;
     69 # 1000; 69 # 1000; 69 # 1000; 66 # 1000; 54 # 1000; 45 # 1000].

(** * The model in closed form

    When no subscript fails, the problem the script builds is [model]. *)

Section ModelTerms.
Variable ds : Dataset.

Definition demand (j : nat) : Q := nth j (S ds) 0.
Definition rate (j : nat) : Q := nth j (r ds) 0.
Definition quota (i : nat) : Q := nth i (p ds) 0.

Definition total_revenue : Q :=
  Qsum (map (fun j => demand j * rate j) (range (m ds))).

Definition target_tons (i : nat) : Q := quota i * T ds.
Definition target_revenue (i : nat) : Q := quota i * total_revenue.

Definition revenue_expr (i : nat) : LpExpr :=
  ElpSum (map (fun j => EScale (rate j) (EVar (X i j))) (range (m ds))).

Definition model : LpProblem :=
  mkProblem LpMinimize
    (concat (x ds) ++ concat (y ds) ++ u ds ++ v ds)
    (map (fun j => demand_constraint ds (demand j) j) (range (m ds))
     ++ linking_constraints ds
     ++ concat (map (fun i => [dev_above (U i) (total_tons ds i) (target_tons i);
                               dev_below (U i) (total_tons ds i) (target_tons i)])
                    (range (n ds)))
     ++ concat (map (fun i => [dev_above (V i) (revenue_expr i) (target_revenue i);
                               dev_below (V i) (revenue_expr i) (target_revenue i)])
                    (range (n ds))))
    (objective_expr ds).

(** The lists are long enough for every subscript the script takes. *)
Definition long_enough : Prop :=
  (m ds <= length (S ds))%nat /\ (m ds <= length (r ds))%nat /\
  (n ds <= length (p ds))%nat.
End ModelTerms.

(** * What the constraints say of an assignment *)

Section Semantics.
Variable ds : Dataset.
Variable a : assignment.

(** Tons of site [j] delivered by all transporters together. *)
Definition delivered (j : nat) : Q :=
  Qsum (map (fun i => a (X i j)) (range (n ds))).

(** Tons and revenue of transporter [i] over all sites. *)
Definition assigned_tons (i : nat) : Q :=
  Qsum (map (fun j => a (X i j)) (range (m ds))).

Definition assigned_revenue (i : nat) : Q :=
  Qsum (map (fun j => rate ds j * a (X i j)) (range (m ds))).

Record satisfies : Prop := mkSat {
  sat_x : forall i j, (i < n ds)%nat -> (j < m ds)%nat -> 0 <= a (X i j);
  sat_y : forall i j, (i < n ds)%nat -> (j < m ds)%nat ->
          a (Y i j) == 0 \/ a (Y i j) == 1;
  sat_u : forall i, (i < n ds)%nat -> 0 <= a (U i);
  sat_v : forall i, (i < n ds)%nat -> 0 <= a (V i);
  sat_demand : forall j, (j < m ds)%nat -> delivered j == demand ds j;
  sat_upper : forall i j, (i < n ds)%nat -> (j < m ds)%nat ->
              a (X i j) <= maxPerAssignment * a (Y i j);
  sat_lower : forall i j, (i < n ds)%nat -> (j < m ds)%nat ->
              minPerAssignment * a (Y i j) <= a (X i j);
  sat_u_above : forall i, (i < n ds)%nat ->
                assigned_tons i - target_tons ds i <= a (U i);
  sat_u_below : forall i, (i < n ds)%nat ->
                - (assigned_tons i - target_tons ds i) <= a (U i);
  sat_v_above : forall i, (i < n ds)%nat ->
                assigned_revenue i - target_revenue ds i <= a (V i);
  sat_v_below : forall i, (i < n ds)%nat ->
                - (assigned_revenue i - target_revenue ds i) <= a (V i)
}.
End Semantics.

(** Replace the deviation variables of transporter [i]. *)
Definition with_deviation (a : assignment) (i : nat) (cu cv : Q) : assignment :=
  fun w =>
    match w with
    | U k => if Nat.eqb k i then cu else a (U k)
    | V k => if Nat.eqb k i then cv else a (V k)
    | _ => a w
    end.

(** [x_sol * np.array(r)] on one row, when there is one rate per column. *)
Definition times_rates (rv : list Q) (row : list Q) : list Q :=
  map (fun '(xv, rj) => xv * rj) (combine row rv).

(** * Datasets and assignments used to exercise the theorems *)

(** Two sites and two transporters: demands 20 and 30, rates 2 and 3, equal
    quotas. *)
Definition scenario : Dataset :=
  mkDataset 2 2 [20; 30] [2; 3] [1 # 2; 1 # 2].

(** Each transporter takes half of each site: both targets are met. *)
Definition scenario_even : assignment :=
  fun w =>
    match w with
    | X 0 0 => 10 | X 1 0 => 10
    | X 0 1 => 15 | X 1 1 => 15
    | Y 0 0 => 1 | Y 1 0 => 1 | Y 0 1 => 1 | Y 1 1 => 1
    | _ => 0
    end.

(** Transporter 0 takes site 0 and 10 tons of site 1. *)
Definition scenario_uneven : assignment :=
  fun w =>
    match w with
    | X 0 0 => 20 | X 0 1 => 10 | X 1 1 => 20
    | Y 0 0 => 1 | Y 0 1 => 1 | Y 1 1 => 1
    | U 0 => 5 | U 1 => 5 | V 0 => 5 | V 1 => 5
    | _ => 0
    end.

(** A raw assignment with a sliver of 1e-7 tons and an allocation of 5
    tons, below the lower threshold; the deviation variables are left at 0. *)
Definition sliver : assignment :=
  fun w =>
    match w with
    | X 0 0 => 1 # 10000000
    | X 0 1 => 5
    | Y 0 1 => 1
    | _ => 0
    end.

(** The tolerance the specification names, 1e-6. *)
Definition epsilon : Q := 1 # 1000000.

(** A negative demand, a negative rate and one quota too many. *)
Definition negative : Dataset :=
  mkDataset 2 1 [-5; 7] [-2; 3] [1; 1].

(** One rate too many. *)
Definition long_rates : Dataset :=
  mkDataset 2 1 [5; 7] [2; 3; 4] [1].

(** One demand too few. *)
Definition short_demands : Dataset :=
  mkDataset 2 1 [5] [2; 3] [1].

(** For the script's own data: site j is shared evenly by its first
    [takers j] transporters. *)
Definition takers (j : nat) : nat := nth j [4; 10; 6; 3; 3; 7; 0; 3]%nat 0%nat.

Definition example_alloc : assignment :=
  fun w =>
    match w with
    | X i j => if Nat.ltb i (takers j)
               then demand example j / inject_Z (Z.of_nat (takers j)) else 0
    | Y i j => if Nat.ltb i (takers j) then 1 else 0
    | U _ => 400
    | V _ => 30000
    end.

(** One site asking for more than one transporter may carry. *)
Definition overloaded : Dataset := mkDataset 1 1 [60] [2] [1].

(** One site, and a demand list with a second entry. *)
Definition surplus : Dataset := mkDataset 1 1 [20; 30] [2] [1].

(** * Definitions for the further properties *)

(** The names the script gives its variables: [f"x_{i}_{j}"], [f"y_{i}_{j}"],
    [f"u_{i}"], [f"v_{i}"]. *)
Definition str (k : nat) : String.string :=
  DecimalString.NilEmpty.string_of_uint (Nat.to_uint k).

Definition var_name (w : var) : String.string :=
  match w with
  | X i j => String.append "x_"%string (String.append (str i) (String.append "_"%string (str j)))
  | Y i j => String.append "y_"%string (String.append (str i) (String.append "_"%string (str j)))
  | U i => String.append "u_"%string (str i)
  | V i => String.append "v_"%string (str i)
  end.

(** The assignment with the same allocation and each deviation variable
    set to the absolute deviation of that allocation. *)
Definition tighten (ds : Dataset) (a : assignment) : assignment :=
  fun w =>
    match w with
    | U i => Qabs (assigned_tons ds a i - target_tons ds i)
    | V i => Qabs (assigned_revenue ds a i - target_revenue ds i)
    | _ => a w
    end.

(** [k] transporters can share [d] tons: each gets between the two
    thresholds. *)
Definition fits (d : Q) (k : nat) : bool :=
  Qle_bool (minPerAssignment * inject_Z (Z.of_nat k)) d &&
  Qle_bool d (maxPerAssignment * inject_Z (Z.of_nat k)).

(** The least number of transporters, at most [k], that can share [d]. *)
Definition site_takers (k : nat) (d : Q) : nat :=
  match find (fits d) (range (Datatypes.S k)) with
  | Some c => c
  | None => 0%nat
  end.

(** Every site shared evenly by its first [site_takers] transporters. *)
Definition spread_xy (ds : Dataset) : assignment :=
  fun w =>
    match w with
    | X i j =>
        if Nat.ltb i (site_takers (n ds) (demand ds j))
        then demand ds j / inject_Z (Z.of_nat (site_takers (n ds) (demand ds j)))
        else 0
    | Y i j => if Nat.ltb i (site_takers (n ds) (demand ds j)) then 1 else 0
    | _ => 0
    end.

Definition spread (ds : Dataset) : assignment := tighten ds (spread_xy ds).

(** The shapes NumPy can broadcast in [x_sol * np.array(r)]. *)
Definition broadcastable (ds : Dataset) : Prop :=
  length (r ds) = m ds \/ length (r ds) = 1%nat \/ m ds = 1%nat.

(** [x_sol[i][j]] of a result. *)
Definition entry (res : AllocationResult) (i j : nat) : Q :=
  nth j (nth i (res_x_sol res) []) 0.

(** Weighted total absolute deviation of an allocation from its targets. *)
Definition weighted_deviation (ds : Dataset) (a : assignment) : Q :=
  alpha * Qsum (map (fun i => Qabs (assigned_tons ds a i - target_tons ds i)) (range (n ds))) +
  beta * Qsum (map (fun i => Qabs (assigned_revenue ds a i - target_revenue ds i))
                   (range (n ds))).

(** The string has no underscore. *)
Fixpoint no_underscore (s : string) : Prop :=
  match s with
  | EmptyString => True
  | String c s' => c <> "_"%char /\ no_underscore s'
  end.

(** * Properties *)

(** ** Sums of rationals *)

Lemma fold_left_Qplus_acc (l : list Q) (acc : Q) :
  fold_left Qplus l acc == acc + Qsum l.
Proof.
  unfold Qsum. revert acc.
  induction l as [|a l IH]; intro acc; simpl.
  - ring.
  - rewrite (IH (acc + a)), (IH (0 + a)). ring.
Qed.

Lemma Qsum_nil : Qsum [] = 0.
Proof. reflexivity. Qed.

Lemma Qsum_cons (a : Q) (l : list Q) : Qsum (a :: l) == a + Qsum l.
Proof.
  unfold Qsum at 1. simpl. rewrite fold_left_Qplus_acc. ring.
Qed.

Lemma Qsum_map_ext {A : Type} (f g : A -> Q) (l : list A) :
  (forall a, In a l -> f a == g a) ->
  Qsum (map f l) == Qsum (map g l).
Proof.
  induction l as [|a l IH]; intro H; simpl.
  - reflexivity.
  - rewrite !Qsum_cons.
    assert (Ha : f a == g a) by (apply H; simpl; auto).
    assert (Hl : Qsum (map f l) == Qsum (map g l)) by (apply IH; intros; apply H; simpl; auto).
    rewrite Ha, Hl. reflexivity.
Qed.

Lemma Qsum_map_plus {A : Type} (f g : A -> Q) (l : list A) :
  Qsum (map (fun a => f a + g a) l) == Qsum (map f l) + Qsum (map g l).
Proof.
  induction l as [|a l IH]; simpl.
  - rewrite Qsum_nil. ring.
  - rewrite !Qsum_cons, IH. ring.
Qed.

Lemma Qsum_map_zero {A : Type} (l : list A) : Qsum (map (fun _ => 0) l) == 0.
Proof.
  induction l as [|a l IH]; simpl.
  - reflexivity.
  - rewrite Qsum_cons, IH. ring.
Qed.

(** Summing a table by rows or by columns gives the same total. *)
Lemma Qsum_exchange {A B : Type} (f : A -> B -> Q) (la : list A) (lb : list B) :
  Qsum (map (fun a => Qsum (map (fun b => f a b) lb)) la) ==
  Qsum (map (fun b => Qsum (map (fun a => f a b) la)) lb).
Proof.
  induction la as [|a la IH]; simpl.
  - rewrite Qsum_nil, Qsum_map_zero. reflexivity.
  - rewrite Qsum_cons, IH.
    rewrite <- Qsum_map_plus.
    apply Qsum_map_ext. intros b _. rewrite Qsum_cons. reflexivity.
Qed.

Lemma Qsum_nonneg {A : Type} (f : A -> Q) (l : list A) :
  (forall a, In a l -> 0 <= f a) -> 0 <= Qsum (map f l).
Proof.
  induction l as [|a l IH]; intro H; simpl.
  - rewrite Qsum_nil. apply Qle_refl.
  - rewrite Qsum_cons.
    rewrite <- (Qplus_0_l 0) at 1.
    apply Qplus_le_compat; [apply H; simpl; auto | apply IH; intros; apply H; simpl; auto].
Qed.

(** Non-negative terms with a zero sum are all zero. *)
Lemma Qsum_zero_terms {A : Type} (f : A -> Q) (l : list A) :
  (forall a, In a l -> 0 <= f a) ->
  Qsum (map f l) == 0 ->
  forall a, In a l -> f a == 0.
Proof.
  induction l as [|b l IH]; intros Hpos Hsum a Hin; simpl in *.
  - contradiction.
  - rewrite Qsum_cons in Hsum.
    assert (Hb : 0 <= f b) by (apply Hpos; auto).
    assert (Hl : 0 <= Qsum (map f l)) by (apply Qsum_nonneg; intros; apply Hpos; auto).
    assert (Hb0 : f b == 0).
    { apply Qle_antisym; [|exact Hb].
      rewrite <- Hsum. rewrite <- (Qplus_0_r (f b)) at 1.
      apply Qplus_le_compat; [apply Qle_refl | exact Hl]. }
    destruct Hin as [<-|Hin]; [exact Hb0|].
    apply IH; auto.
    rewrite Hb0 in Hsum. rewrite <- Hsum. ring.
Qed.

(** Terms each at most [c] sum to at most [length * c]. *)
Lemma Qsum_le_bound {A : Type} (f : A -> Q) (c : Q) (l : list A) :
  (forall a, In a l -> f a <= c) ->
  Qsum (map f l) <= inject_Z (Z.of_nat (length l)) * c.
Proof.
  induction l as [|b l IH]; intro H.
  - simpl. rewrite Qsum_nil. rewrite Qmult_0_l. apply Qle_refl.
  - cbn [map length]. rewrite Qsum_cons.
    rewrite Nat2Z.inj_succ, <- Z.add_1_l, inject_Z_plus.
    rewrite Qmult_plus_distr_l, Qmult_1_l.
    apply Qplus_le_compat; [apply H; simpl; auto | apply IH; intros; apply H; simpl; auto].
Qed.

(** ** Subscripts and comprehensions *)

Lemma subscript_ok (l : list Q) (j : nat) :
  (j < length l)%nat -> subscript l j = Ok (nth j l 0).
Proof.
  intro H. unfold subscript.
  rewrite (nth_error_nth' l 0 H). reflexivity.
Qed.

Lemma subscript_raise (l : list Q) (j : nat) :
  (length l <= j)%nat -> subscript l j = Raise IndexError.
Proof.
  intro H. unfold subscript.
  apply nth_error_None in H. rewrite H. reflexivity.
Qed.

Lemma mapM_ok_map {A B : Type} (f : A -> result B) (g : A -> B) (l : list A) :
  (forall a, In a l -> f a = Ok (g a)) -> mapM f l = Ok (map g l).
Proof.
  induction l as [|a l IH]; intro H; simpl.
  - reflexivity.
  - rewrite (H a) by (simpl; auto). simpl.
    rewrite IH by (intros; apply H; simpl; auto). reflexivity.
Qed.

Lemma mapM_fails {A B : Type} (f : A -> result B) (l : list A) (a : A) (e : exn) :
  In a l -> f a = Raise e ->
  (forall a' e', f a' = Raise e' -> e' = e) ->
  mapM f l = Raise e.
Proof.
  induction l as [|b l IH]; intros Hin Hf Honly; simpl in *.
  - contradiction.
  - destruct (f b) as [b'|e'] eqn:Hb; simpl.
    + destruct Hin as [->|Hin]; [congruence|].
      rewrite (IH Hin Hf Honly). reflexivity.
    + rewrite (Honly b e' Hb). reflexivity.
Qed.

Lemma nth_error_map_range {A : Type} (f : nat -> A) (k i : nat) :
  (i < k)%nat -> nth_error (map f (range k)) i = Some (f i).
Proof.
  intro H. unfold range.
  rewrite nth_error_map, nth_error_seq.
  apply Nat.ltb_lt in H. rewrite H. reflexivity.
Qed.

Lemma in_range (k i : nat) : In i (range k) <-> (i < k)%nat.
Proof.
  unfold range. rewrite in_seq. lia.
Qed.

(** ** The model the script builds, in closed form *)

Section Model.
Variable ds : Dataset.

Lemma R_ok :
  (m ds <= length (S ds))%nat -> (m ds <= length (r ds))%nat ->
  R ds = Ok (total_revenue ds).
Proof.
  intros HS Hr. unfold R, total_revenue.
  rewrite (mapM_ok_map _ (fun j => demand ds j * rate ds j)); [reflexivity|].
  intros j Hj. apply in_range in Hj.
  rewrite !subscript_ok by lia. reflexivity.
Qed.

Lemma t_ok : long_enough ds -> t ds = Ok (map (target_tons ds) (range (n ds))).
Proof.
  intros (_ & _ & Hp). unfold t.
  apply mapM_ok_map. intros i Hi. apply in_range in Hi.
  rewrite subscript_ok by lia. reflexivity.
Qed.

Lemma q_ok (R' : Q) :
  long_enough ds -> q ds R' = Ok (map (fun i => quota ds i * R') (range (n ds))).
Proof.
  intros (_ & _ & Hp). unfold q.
  apply mapM_ok_map. intros i Hi. apply in_range in Hi.
  rewrite subscript_ok by lia. reflexivity.
Qed.

Lemma total_rev_ok (i : nat) : long_enough ds -> total_rev ds i = Ok (revenue_expr ds i).
Proof.
  intros (_ & Hr & _). unfold total_rev, revenue_expr.
  rewrite (mapM_ok_map _ (fun j => EScale (rate ds j) (EVar (X i j)))); [reflexivity|].
  intros j Hj. apply in_range in Hj.
  rewrite subscript_ok by lia. reflexivity.
Qed.

Lemma build_ok : long_enough ds -> build ds = Ok (model ds).
Proof.
  intro H. pose proof H as (HS & Hr & Hp).
  unfold build.
  rewrite (R_ok HS Hr). cbn [bind].
  rewrite (t_ok H). cbn [bind].
  rewrite (q_ok _ H). cbn [bind].
  unfold demand_constraints.
  rewrite (mapM_ok_map _ (fun j => demand_constraint ds (demand ds j) j)).
  2:{ intros j Hj. apply in_range in Hj. rewrite subscript_ok by lia. reflexivity. }
  cbn [bind]. unfold tonnage_constraints.
  rewrite (mapM_ok_map _ (fun i => [dev_above (U i) (total_tons ds i) (target_tons ds i);
                                    dev_below (U i) (total_tons ds i) (target_tons ds i)])).
  2:{ intros i Hi. apply in_range in Hi. unfold subscript.
      rewrite nth_error_map_range by lia. reflexivity. }
  cbn [bind]. unfold revenue_constraints.
  rewrite (mapM_ok_map _ (fun i => [dev_above (V i) (revenue_expr ds i) (target_revenue ds i);
                                    dev_below (V i) (revenue_expr ds i) (target_revenue ds i)])).
  2:{ intros i Hi. apply in_range in Hi. rewrite (total_rev_ok i H). unfold subscript.
      rewrite nth_error_map_range by lia. reflexivity. }
  reflexivity.
Qed.

Lemma R_raises : ~ ((m ds <= length (S ds))%nat /\ (m ds <= length (r ds))%nat) ->
  R ds = Raise IndexError.
Proof.
  intro H. unfold R.
  assert (Hj : exists j, (j < m ds)%nat /\
                         ((length (S ds) <= j)%nat \/ (length (r ds) <= j)%nat)).
  { destruct (le_lt_dec (m ds) (length (S ds))) as [HS|HS].
    - destruct (le_lt_dec (m ds) (length (r ds))) as [Hr|Hr]; [tauto|].
      exists (length (r ds)). lia.
    - exists (length (S ds)). lia. }
  destruct Hj as (j & Hjm & Hj).
  rewrite (mapM_fails _ (range (m ds)) j IndexError); [reflexivity | | |].
  - apply in_range. exact Hjm.
  - destruct (le_lt_dec (length (S ds)) j) as [HS|HS].
    + rewrite subscript_raise by exact HS. reflexivity.
    + rewrite subscript_ok by exact HS. cbn [bind].
      rewrite subscript_raise by lia. reflexivity.
  - intros j' e'. unfold subscript.
    destruct (nth_error (S ds) j'); cbn [bind]; [|congruence].
    destruct (nth_error (r ds) j'); cbn [bind]; congruence.
Qed.

Lemma t_raises : (length (p ds) < n ds)%nat -> t ds = Raise IndexError.
Proof.
  intro H. unfold t.
  apply (mapM_fails _ _ (length (p ds)) IndexError).
  - apply in_range. exact H.
  - rewrite subscript_raise by lia. reflexivity.
  - intros i' e'. unfold subscript.
    destruct (nth_error (p ds) i'); cbn [bind]; congruence.
Qed.

Lemma build_raises : ~ long_enough ds -> build ds = Raise IndexError.
Proof.
  intro H. unfold long_enough in H. unfold build.
  destruct (le_lt_dec (m ds) (length (S ds))) as [HS|HS];
    [destruct (le_lt_dec (m ds) (length (r ds))) as [Hr|Hr] | ].
  - rewrite (R_ok HS Hr). cbn [bind].
    rewrite t_raises by lia. reflexivity.
  - rewrite R_raises by lia. reflexivity.
  - rewrite R_raises by lia. reflexivity.
Qed.

(** The script gets as far as the solver exactly when every list is long
    enough. *)
Lemma build_Ok_inv (prob : LpProblem) :
  build ds = Ok prob -> long_enough ds /\ prob = model ds.
Proof.
  intro H.
  assert (HL : long_enough ds).
  { destruct (le_lt_dec (m ds) (length (S ds))) as [HS|HS];
      [destruct (le_lt_dec (m ds) (length (r ds))) as [Hr|Hr];
       [destruct (le_lt_dec (n ds) (length (p ds))) as [Hp|Hp] | ] | ];
      [ unfold long_enough; tauto | | | ];
      exfalso; rewrite build_raises in H;
      try discriminate; unfold long_enough; lia. }
  split; [exact HL|].
  rewrite (build_ok HL) in H. congruence.
Qed.
End Model.

(** ** What a feasible assignment of the model satisfies *)

Lemma in_bounds_continuous (a : assignment) (w : var) :
  in_bounds a (continuous_var w) <-> 0 <= a w.
Proof.
  unfold in_bounds, continuous_var. simpl. tauto.
Qed.

Lemma in_bounds_binary (a : assignment) (w : var) :
  in_bounds a (binary_var w) <-> (a w == 0 \/ a w == 1).
Proof.
  unfold in_bounds, binary_var, integral. simpl. split.
  - intros (H0 & H1 & z & Hz).
    rewrite Hz in H0, H1.
    change 0 with (inject_Z 0) in H0. change 1 with (inject_Z 1) in H1.
    rewrite <- Zle_Qle in H0, H1.
    assert (Hc : z = 0%Z \/ z = 1%Z) by lia.
    destruct Hc as [-> | ->]; [left | right]; exact Hz.
  - intros [H | H]; repeat split; try (rewrite H; discriminate).
    + exists 0%Z. exact H.
    + exists 1%Z. exact H.
Qed.

Section Feasibility.
Variable ds : Dataset.
Variable a : assignment.

Lemma eval_demand_lhs (j : nat) :
  eval a (ElpSum (map (fun i => EVar (X i j)) (range (n ds)))) = delivered ds a j.
Proof. simpl. rewrite map_map. reflexivity. Qed.

Lemma eval_total_tons (i : nat) : eval a (total_tons ds i) = assigned_tons ds a i.
Proof. unfold total_tons. simpl. rewrite map_map. reflexivity. Qed.

Lemma eval_revenue_expr (i : nat) : eval a (revenue_expr ds i) = assigned_revenue ds a i.
Proof. unfold revenue_expr. simpl. rewrite map_map. reflexivity. Qed.

Lemma eval_objective :
  eval a (objective_expr ds) =
  alpha * Qsum (map (fun i => a (U i)) (range (n ds))) +
  beta * Qsum (map (fun i => a (V i)) (range (n ds))).
Proof. unfold objective_expr. simpl. rewrite !map_map. reflexivity. Qed.

Lemma Forall_range (P : nat -> Prop) (k : nat) :
  Forall P (range k) <-> forall i, (i < k)%nat -> P i.
Proof.
  rewrite Forall_forall. split; intros H i Hi; apply H; apply in_range; exact Hi.
Qed.

Lemma Forall_pair {A : Type} (P : A -> Prop) (c1 c2 : A) :
  Forall P [c1; c2] <-> P c1 /\ P c2.
Proof.
  split.
  - intro H. inversion H as [|? ? H1 H2]; subst. inversion H2; subst. auto.
  - intros [H1 H2]. repeat constructor; assumption.
Qed.

Lemma feasible_model_iff : feasible (model ds) a <-> satisfies ds a.
Proof.
  unfold feasible, model. cbn [variables constraints].
  rewrite !Forall_app. unfold x, y, u, v, linking_constraints.
  rewrite !Forall_concat, !Forall_flat_map, !Forall_map, !Forall_range.
  split.
  - intros ((Hx & Hy & Hu & Hv) & Hd & Hl & Ht & Hr).
    constructor.
    + intros i j Hi Hj. specialize (Hx i Hi).
      rewrite Forall_map, Forall_range in Hx.
      apply in_bounds_continuous. apply (Hx j Hj).
    + intros i j Hi Hj. specialize (Hy i Hi).
      rewrite Forall_map, Forall_range in Hy.
      apply in_bounds_binary. apply (Hy j Hj).
    + intros i Hi. apply in_bounds_continuous. apply (Hu i Hi).
    + intros i Hi. apply in_bounds_continuous. apply (Hv i Hi).
    + intros j Hj. specialize (Hd j Hj).
      unfold holds, demand_constraint in Hd. cbn [sense lhs rhs] in Hd.
      rewrite eval_demand_lhs in Hd. exact Hd.
    + intros i j Hi Hj. specialize (Hl i Hi).
      rewrite Forall_flat_map, Forall_range in Hl.
      specialize (Hl j Hj). apply Forall_pair in Hl. apply Hl.
    + intros i j Hi Hj. specialize (Hl i Hi).
      rewrite Forall_flat_map, Forall_range in Hl.
      specialize (Hl j Hj). apply Forall_pair in Hl. apply Hl.
    + intros i Hi. specialize (Ht i Hi). apply Forall_pair in Ht.
      destruct Ht as [Ht _]. unfold holds, dev_above in Ht. cbn [sense lhs rhs] in Ht.
      cbn [eval] in Ht. rewrite eval_total_tons in Ht. exact Ht.
    + intros i Hi. specialize (Ht i Hi). apply Forall_pair in Ht.
      destruct Ht as [_ Ht]. unfold holds, dev_below in Ht. cbn [sense lhs rhs] in Ht.
      cbn [eval] in Ht. rewrite eval_total_tons in Ht. exact Ht.
    + intros i Hi. specialize (Hr i Hi). apply Forall_pair in Hr.
      destruct Hr as [Hr _]. unfold holds, dev_above in Hr. cbn [sense lhs rhs] in Hr.
      cbn [eval] in Hr. rewrite eval_revenue_expr in Hr. exact Hr.
    + intros i Hi. specialize (Hr i Hi). apply Forall_pair in Hr.
      destruct Hr as [_ Hr]. unfold holds, dev_below in Hr. cbn [sense lhs rhs] in Hr.
      cbn [eval] in Hr. rewrite eval_revenue_expr in Hr. exact Hr.
  - intros [Hx Hy Hu Hv Hd Hup Hlo Hua Hub Hva Hvb].
    refine (conj (conj _ (conj _ (conj _ _))) (conj _ (conj _ (conj _ _)))).
    + intros i Hi. rewrite Forall_map, Forall_range. intros j Hj.
      apply in_bounds_continuous. auto.
    + intros i Hi. rewrite Forall_map, Forall_range. intros j Hj.
      apply in_bounds_binary. auto.
    + intros i Hi. apply in_bounds_continuous. auto.
    + intros i Hi. apply in_bounds_continuous. auto.
    + intros j Hj. unfold holds, demand_constraint. cbn [sense lhs rhs].
      rewrite eval_demand_lhs. auto.
    + intros i Hi. rewrite Forall_flat_map, Forall_range. intros j Hj.
      apply Forall_pair. split; [apply (Hup i j Hi Hj) | apply (Hlo i j Hi Hj)].
    + intros i Hi. apply Forall_pair.
      unfold holds, dev_above, dev_below. cbn [sense lhs rhs eval].
      rewrite eval_total_tons. auto.
    + intros i Hi. apply Forall_pair.
      unfold holds, dev_above, dev_below. cbn [sense lhs rhs eval].
      rewrite eval_revenue_expr. auto.
Qed.
End Feasibility.

Ltac below i :=
  first [ exfalso; lia | destruct i as [|i]; [ | below i ] ].

Ltac qdecide :=
  first [ reflexivity
        | vm_compute; first [ reflexivity | discriminate ]
        | left; qdecide
        | right; qdecide ].

Ltac check_satisfies :=
  constructor;
  [ intros i j Hi Hj; simpl in Hi, Hj; below i; below j; qdecide
  | intros i j Hi Hj; simpl in Hi, Hj; below i; below j; qdecide
  | intros i Hi; simpl in Hi; below i; qdecide
  | intros i Hi; simpl in Hi; below i; qdecide
  | intros j Hj; simpl in Hj; below j; qdecide
  | intros i j Hi Hj; simpl in Hi, Hj; below i; below j; qdecide
  | intros i j Hi Hj; simpl in Hi, Hj; below i; below j; qdecide
  | intros i Hi; simpl in Hi; below i; qdecide
  | intros i Hi; simpl in Hi; below i; qdecide
  | intros i Hi; simpl in Hi; below i; qdecide
  | intros i Hi; simpl in Hi; below i; qdecide ].

Lemma scenario_even_feasible : feasible (model scenario) scenario_even.
Proof. apply feasible_model_iff. check_satisfies. Qed.

Lemma scenario_uneven_feasible : feasible (model scenario) scenario_uneven.
Proof. apply feasible_model_iff. check_satisfies. Qed.

(** ** Demand coverage *)

(** C1: for every site j (j < m) of a dataset the script can build from,
    the model contains the equality constraint
    [lpSum(x[i][j] for i in range(n)) == S[j]], and every feasible
    assignment delivers exactly S[j] tons to site j, hence within any
    tolerance eps >= 0. *)
Theorem demand_coverage (ds : Dataset) (prob : LpProblem) (j : nat) :
  build ds = Ok prob ->
  (j < m ds)%nat ->
  exists Sj,
    nth_error (S ds) j = Some Sj /\
    In (mkConstraint (ElpSum (map (fun i => EVar (X i j)) (range (n ds)))) EQ (EConst Sj))
       (constraints prob) /\
    forall a, feasible prob a ->
      Qsum (map (fun i => a (X i j)) (range (n ds))) == Sj /\
      forall eps, 0 <= eps ->
        Qabs (Qsum (map (fun i => a (X i j)) (range (n ds))) - Sj) <= eps.
Proof.
  intros Hb Hj.
  destruct (build_Ok_inv ds prob Hb) as [HL ->].
  pose proof HL as (HS & _ & _).
  exists (demand ds j). split; [|split].
  - unfold demand. apply nth_error_nth'. lia.
  - unfold model. cbn [constraints]. apply in_or_app. left.
    apply in_map_iff. exists j. split; [reflexivity | apply in_range; exact Hj].
  - intros a Ha. apply feasible_model_iff in Ha.
    pose proof (sat_demand ds a Ha j Hj) as Hd. unfold delivered in Hd.
    split; [exact Hd|].
    intros eps Heps. rewrite Hd.
    setoid_replace (demand ds j - demand ds j) with 0 by ring.
    exact Heps.
Qed.

Lemma demand_coverage_witness :
  exists Sj,
    nth_error [20; 30] 1 = Some Sj /\
    In (mkConstraint (ElpSum [EVar (X 0 1); EVar (X 1 1)]) EQ (EConst Sj))
       (constraints (model scenario)) /\
    scenario_uneven (X 0 1) + scenario_uneven (X 1 1) == Sj.
Proof.
  destruct (demand_coverage scenario (model scenario) 1) as (Sj & HS & Hin & Hall).
  - reflexivity.
  - simpl. lia.
  - exists Sj. split; [exact HS|]. split; [exact Hin|].
    destruct (Hall scenario_uneven scenario_uneven_feasible) as [Heq _].
    rewrite <- Heq. vm_compute. reflexivity.
Defined.

(** ** Linking constraints and semi-continuity *)

Lemma linking_in (ds : Dataset) (i j : nat) :
  (i < n ds)%nat -> (j < m ds)%nat ->
  In (link_upper i j) (linking_constraints ds) /\
  In (link_lower i j) (linking_constraints ds).
Proof.
  intros Hi Hj. unfold linking_constraints.
  split; apply in_flat_map; exists i; (split; [apply in_range; exact Hi|]);
    apply in_flat_map; exists j; (split; [apply in_range; exact Hj|]); simpl; auto.
Qed.

Lemma binary_in (ds : Dataset) (i j : nat) :
  (i < n ds)%nat -> (j < m ds)%nat ->
  In (binary_var (Y i j)) (concat (y ds)).
Proof.
  intros Hi Hj. apply in_concat.
  exists (map (fun j => binary_var (Y i j)) (range (m ds))). split.
  - unfold y. apply in_map_iff. exists i. split; [reflexivity | apply in_range; exact Hi].
  - apply in_map_iff. exists j. split; [reflexivity | apply in_range; exact Hj].
Qed.

(** With [y] at 0 the allocation is 0, with [y] at 1 it lies between the
    two thresholds. *)
Lemma semi_continuous (ds : Dataset) (a : assignment) (i j : nat) :
  satisfies ds a -> (i < n ds)%nat -> (j < m ds)%nat ->
  (a (Y i j) == 0 /\ a (X i j) == 0) \/
  (a (Y i j) == 1 /\ minPerAssignment <= a (X i j) /\ a (X i j) <= maxPerAssignment).
Proof.
  intros Hs Hi Hj.
  pose proof (sat_x ds a Hs i j Hi Hj) as Hx.
  pose proof (sat_upper ds a Hs i j Hi Hj) as Hup.
  pose proof (sat_lower ds a Hs i j Hi Hj) as Hlo.
  unfold minPerAssignment, maxPerAssignment in *.
  destruct (sat_y ds a Hs i j Hi Hj) as [Hy | Hy]; rewrite Hy in Hup, Hlo.
  - left. split; [exact Hy | lra].
  - right. split; [exact Hy | lra].
Qed.

(** C2: for every pair (i,j) the model contains [x[i][j] <= 50*y[i][j]]
    and [x[i][j] >= 10*y[i][j]] with [y[i][j]] declared binary; in every
    feasible assignment [x[i][j]] is 0 or lies in
    [[minPerAssignment, maxPerAssignment]], and [y[i][j]] is 1 exactly when
    [x[i][j]] is positive. *)
Theorem linking_semicontinuity (ds : Dataset) (prob : LpProblem) (i j : nat) :
  build ds = Ok prob ->
  (i < n ds)%nat -> (j < m ds)%nat ->
  In (mkConstraint (EVar (X i j)) LE (EScale maxPerAssignment (EVar (Y i j))))
     (constraints prob) /\
  In (mkConstraint (EVar (X i j)) GE (EScale minPerAssignment (EVar (Y i j))))
     (constraints prob) /\
  In (binary_var (Y i j)) (variables prob) /\
  forall a, feasible prob a ->
    (a (Y i j) == 0 \/ a (Y i j) == 1) /\
    (a (X i j) == 0 \/
     (minPerAssignment <= a (X i j) /\ a (X i j) <= maxPerAssignment)) /\
    (a (Y i j) == 1 <-> 0 < a (X i j)).
Proof.
  intros Hb Hi Hj.
  destruct (build_Ok_inv ds prob Hb) as [HL ->].
  destruct (linking_in ds i j Hi Hj) as [Hup Hlo].
  unfold model. cbn [constraints variables].
  split; [|split; [|split]].
  - apply in_or_app. right. apply in_or_app. left. exact Hup.
  - apply in_or_app. right. apply in_or_app. left. exact Hlo.
  - apply in_or_app. right. apply in_or_app. left. apply binary_in; assumption.
  - intros a Ha. apply feasible_model_iff in Ha.
    pose proof (semi_continuous ds a i j Ha Hi Hj) as Hsc.
    unfold minPerAssignment, maxPerAssignment in *.
    split; [|split].
    + destruct Hsc as [[Hy _] | [Hy _]]; auto.
    + destruct Hsc as [[_ Hx] | [_ Hx]]; auto.
    + destruct Hsc as [[Hy Hx] | [Hy Hx]]; split; intro H; lra.
Qed.

Lemma linking_semicontinuity_witness :
  In (link_upper 0 1) (constraints (model scenario)) /\
  In (link_lower 0 1) (constraints (model scenario)) /\
  (scenario_uneven (Y 0 1) == 1 <-> 0 < scenario_uneven (X 0 1)) /\
  (scenario_uneven (Y 1 0) == 1 <-> 0 < scenario_uneven (X 1 0)).
Proof.
  destruct (linking_semicontinuity scenario (model scenario) 0 1)
    as (Hup & Hlo & _ & Hall); [reflexivity | simpl; lia | simpl; lia |].
  destruct (linking_semicontinuity scenario (model scenario) 1 0)
    as (_ & _ & _ & Hall'); [reflexivity | simpl; lia | simpl; lia |].
  split; [exact Hup|]. split; [exact Hlo|]. split.
  - apply (Hall scenario_uneven scenario_uneven_feasible).
  - apply (Hall' scenario_uneven scenario_uneven_feasible).
Defined.

(** ** Deviation variables *)

Lemma Qsum_update (f : nat -> Q) (c : Q) (i : nat) (l : list nat) :
  NoDup l ->
  Qsum (map (fun k => if Nat.eqb k i then c else f k) l) ==
  if in_dec Nat.eq_dec i l then Qsum (map f l) - f i + c else Qsum (map f l).
Proof.
  induction 1 as [|k l Hk Hnd IH]; simpl.
  - reflexivity.
  - rewrite !Qsum_cons, IH.
    destruct (Nat.eq_dec k i) as [->|Hne].
    + rewrite Nat.eqb_refl.
      destruct (in_dec Nat.eq_dec i l) as [Hin|_]; [contradiction|].
      rewrite Qsum_cons. ring.
    + pose proof Hne as Hb. apply Nat.eqb_neq in Hb. rewrite Hb.
      destruct (in_dec Nat.eq_dec i l); rewrite Qsum_cons; ring.
Qed.

Lemma Qsum_update_range (f : nat -> Q) (c : Q) (i k : nat) :
  (i < k)%nat ->
  Qsum (map (fun j => if Nat.eqb j i then c else f j) (range k)) ==
  Qsum (map f (range k)) - f i + c.
Proof.
  intro H. rewrite Qsum_update by apply seq_NoDup.
  destruct (in_dec Nat.eq_dec i (range k)) as [_|Hn]; [reflexivity|].
  exfalso. apply Hn. apply in_range. exact H.
Qed.

Section Deviation.
Variable ds : Dataset.
Variable a : assignment.
Variable i : nat.
Hypothesis Hi : (i < n ds)%nat.
Hypothesis Hsat : satisfies ds a.

Lemma deviation_bounds :
  Qabs (assigned_tons ds a i - target_tons ds i) <= a (U i) /\
  Qabs (assigned_revenue ds a i - target_revenue ds i) <= a (V i).
Proof.
  pose proof (sat_u_above ds a Hsat i Hi). pose proof (sat_u_below ds a Hsat i Hi).
  pose proof (sat_v_above ds a Hsat i Hi). pose proof (sat_v_below ds a Hsat i Hi).
  split; apply Qabs_Qle_condition; split; lra.
Qed.

Lemma with_deviation_satisfies (cu cv : Q) :
  Qabs (assigned_tons ds a i - target_tons ds i) <= cu ->
  Qabs (assigned_revenue ds a i - target_revenue ds i) <= cv ->
  satisfies ds (with_deviation a i cu cv).
Proof.
  intros Hu Hv.
  apply Qabs_Qle_condition in Hu. apply Qabs_Qle_condition in Hv.
  destruct Hsat as [Hx Hy Hu0 Hv0 Hd Hup Hlo Hua Hub Hva Hvb].
  constructor; try assumption.
  - intros k Hk. simpl. destruct (Nat.eqb k i); [lra | auto].
  - intros k Hk. simpl. destruct (Nat.eqb k i); [lra | auto].
  - intros k Hk. simpl. change (assigned_tons ds (with_deviation a i cu cv) k)
      with (assigned_tons ds a k).
    destruct (Nat.eqb k i) eqn:E; [apply Nat.eqb_eq in E; subst k; lra | auto].
  - intros k Hk. simpl. change (assigned_tons ds (with_deviation a i cu cv) k)
      with (assigned_tons ds a k).
    destruct (Nat.eqb k i) eqn:E; [apply Nat.eqb_eq in E; subst k; lra | auto].
  - intros k Hk. simpl. change (assigned_revenue ds (with_deviation a i cu cv) k)
      with (assigned_revenue ds a k).
    destruct (Nat.eqb k i) eqn:E; [apply Nat.eqb_eq in E; subst k; lra | auto].
  - intros k Hk. simpl. change (assigned_revenue ds (with_deviation a i cu cv) k)
      with (assigned_revenue ds a k).
    destruct (Nat.eqb k i) eqn:E; [apply Nat.eqb_eq in E; subst k; lra | auto].
Qed.

Lemma with_deviation_objective (cu cv : Q) :
  eval (with_deviation a i cu cv) (objective_expr ds) ==
  eval a (objective_expr ds) - alpha * (a (U i) - cu) - beta * (a (V i) - cv).
Proof.
  rewrite !eval_objective. simpl.
  rewrite (Qsum_update_range (fun k => a (U k)) cu i (n ds) Hi).
  rewrite (Qsum_update_range (fun k => a (V k)) cv i (n ds) Hi).
  ring.
Qed.

(** At a minimum of the objective neither deviation variable has slack. *)
Lemma deviation_tight :
  (forall a', feasible (model ds) a' ->
              eval a (objective_expr ds) <= eval a' (objective_expr ds)) ->
  a (U i) == Qabs (assigned_tons ds a i - target_tons ds i) /\
  a (V i) == Qabs (assigned_revenue ds a i - target_revenue ds i).
Proof.
  intro Hopt. destruct deviation_bounds as [Hu Hv].
  split; apply Qle_antisym; try assumption.
  - assert (Hs : satisfies ds
              (with_deviation a i (Qabs (assigned_tons ds a i - target_tons ds i)) (a (V i)))).
    { apply with_deviation_satisfies; [apply Qle_refl | exact Hv]. }
    apply feasible_model_iff in Hs. apply Hopt in Hs.
    rewrite with_deviation_objective in Hs. unfold alpha, beta in Hs. lra.
  - assert (Hs : satisfies ds
              (with_deviation a i (a (U i)) (Qabs (assigned_revenue ds a i - target_revenue ds i)))).
    { apply with_deviation_satisfies; [exact Hu | apply Qle_refl]. }
    apply feasible_model_iff in Hs. apply Hopt in Hs.
    rewrite with_deviation_objective in Hs. unfold alpha, beta in Hs. lra.
Qed.
End Deviation.

Lemma deviation_in (ds : Dataset) (i : nat) (w : nat -> var) (e : nat -> LpExpr)
      (c : nat -> Q) :
  (i < n ds)%nat ->
  In (dev_above (w i) (e i) (c i))
     (concat (map (fun k => [dev_above (w k) (e k) (c k); dev_below (w k) (e k) (c k)])
                  (range (n ds)))) /\
  In (dev_below (w i) (e i) (c i))
     (concat (map (fun k => [dev_above (w k) (e k) (c k); dev_below (w k) (e k) (c k)])
                  (range (n ds)))).
Proof.
  intro Hi.
  split; apply in_concat;
    exists [dev_above (w i) (e i) (c i); dev_below (w i) (e i) (c i)];
    (split; [apply in_map_iff; exists i; split; [reflexivity | apply in_range; exact Hi]
            | simpl; auto]).
Qed.

Lemma objective_nonneg (ds : Dataset) (a : assignment) :
  satisfies ds a -> 0 <= eval a (objective_expr ds).
Proof.
  intro Hs. rewrite eval_objective.
  assert (Hu : 0 <= Qsum (map (fun i => a (U i)) (range (n ds)))).
  { apply Qsum_nonneg. intros i Hin. apply in_range in Hin. apply (sat_u ds a Hs i Hin). }
  assert (Hv : 0 <= Qsum (map (fun i => a (V i)) (range (n ds)))).
  { apply Qsum_nonneg. intros i Hin. apply in_range in Hin. apply (sat_v ds a Hs i Hin). }
  unfold alpha, beta. lra.
Qed.

(** C3: for every transporter i the model contains
    [u[i] >= total_tons - t[i]] and [u[i] >= -(total_tons - t[i])], and the
    same pair for [v[i]] with [total_rev] and [q[i]]; at every optimal
    solution [u[i]] equals |assigned tons - target tons| and [v[i]] equals
    |assigned revenue - target revenue|, hence within any eps >= 0. *)
Theorem deviation_linearization (ds : Dataset) (prob : LpProblem) (i : nat) :
  build ds = Ok prob ->
  (i < n ds)%nat ->
  In (mkConstraint (EVar (U i)) GE (ESub (total_tons ds i) (EConst (target_tons ds i))))
     (constraints prob) /\
  In (mkConstraint (EVar (U i)) GE (ENeg (ESub (total_tons ds i) (EConst (target_tons ds i)))))
     (constraints prob) /\
  In (mkConstraint (EVar (V i)) GE (ESub (revenue_expr ds i) (EConst (target_revenue ds i))))
     (constraints prob) /\
  In (mkConstraint (EVar (V i)) GE
                   (ENeg (ESub (revenue_expr ds i) (EConst (target_revenue ds i)))))
     (constraints prob) /\
  forall a, optimal prob a ->
    a (U i) == Qabs (assigned_tons ds a i - target_tons ds i) /\
    a (V i) == Qabs (assigned_revenue ds a i - target_revenue ds i) /\
    forall eps, 0 <= eps ->
      Qabs (a (U i) - Qabs (assigned_tons ds a i - target_tons ds i)) <= eps /\
      Qabs (a (V i) - Qabs (assigned_revenue ds a i - target_revenue ds i)) <= eps.
Proof.
  intros Hb Hi.
  destruct (build_Ok_inv ds prob Hb) as [HL ->].
  destruct (deviation_in ds i U (total_tons ds) (target_tons ds) Hi) as [Hua Hub].
  destruct (deviation_in ds i V (revenue_expr ds) (target_revenue ds) Hi) as [Hva Hvb].
  unfold model at 1 2 3 4. cbn [constraints].
  split; [|split; [|split; [|split]]].
  - apply in_or_app. right. apply in_or_app. right. apply in_or_app. left. exact Hua.
  - apply in_or_app. right. apply in_or_app. right. apply in_or_app. left. exact Hub.
  - apply in_or_app. right. apply in_or_app. right. apply in_or_app. right. exact Hva.
  - apply in_or_app. right. apply in_or_app. right. apply in_or_app. right. exact Hvb.
  - intros a [Hfeas Hmin]. cbn [model objSense objective] in Hmin.
    apply feasible_model_iff in Hfeas.
    destruct (deviation_tight ds a i Hi Hfeas Hmin) as [Hu Hv].
    split; [exact Hu|]. split; [exact Hv|].
    intros eps Heps. rewrite Hu, Hv.
    split.
    + setoid_replace (Qabs (assigned_tons ds a i - target_tons ds i)
                      - Qabs (assigned_tons ds a i - target_tons ds i)) with 0 by ring.
      exact Heps.
    + setoid_replace (Qabs (assigned_revenue ds a i - target_revenue ds i)
                      - Qabs (assigned_revenue ds a i - target_revenue ds i)) with 0 by ring.
      exact Heps.
Qed.

Lemma scenario_even_optimal : optimal (model scenario) scenario_even.
Proof.
  split; [exact scenario_even_feasible|].
  intros a' Ha'. cbn [model objSense objective].
  apply feasible_model_iff in Ha'.
  apply Qle_trans with 0; [vm_compute; discriminate | apply objective_nonneg; exact Ha'].
Qed.

Lemma deviation_linearization_witness :
  In (dev_above (U 1) (total_tons scenario 1) (target_tons scenario 1))
     (constraints (model scenario)) /\
  scenario_even (U 1) ==
    Qabs (assigned_tons scenario scenario_even 1 - target_tons scenario 1) /\
  scenario_even (V 1) ==
    Qabs (assigned_revenue scenario scenario_even 1 - target_revenue scenario 1).
Proof.
  destruct (deviation_linearization scenario (model scenario) 1)
    as (Hin & _ & _ & _ & Hall); [reflexivity | simpl; lia |].
  destruct (Hall scenario_even scenario_even_optimal) as (Hu & Hv & _).
  split; [exact Hin|]. split; [exact Hu | exact Hv].
Defined.

(** ** Solution extraction *)

Lemma x_sol_nonempty (ds : Dataset) (value : assignment) :
  (0 < n ds)%nat -> x_sol ds value <> [].
Proof.
  unfold x_sol, range. destruct (n ds); [lia|]. simpl. discriminate.
Qed.

Lemma sum_axis1_ok (a : list (list Q)) : a <> [] -> sum_axis1 a = Ok (map Qsum a).
Proof.
  destruct a; [congruence | reflexivity].
Qed.

(** With at least one transporter and one rate per site the extraction
    returns, and its three parts are these. *)
Lemma extract_ok (ds : Dataset) (value : assignment) :
  (0 < n ds)%nat -> length (r ds) = m ds ->
  extract ds value =
  Ok (mkResult (x_sol ds value)
               (map Qsum (x_sol ds value))
               (map Qsum (map (times_rates (r ds)) (x_sol ds value)))).
Proof.
  intros Hn Hr. unfold extract.
  rewrite sum_axis1_ok by (apply x_sol_nonempty; exact Hn). cbn [bind].
  unfold mul_broadcast. rewrite Hr, Nat.eqb_refl. cbn [bind].
  rewrite sum_axis1_ok; [reflexivity|].
  intro H. apply map_eq_nil in H. revert H. apply x_sol_nonempty. exact Hn.
Qed.

Lemma Qsum_times_rates (rv : list Q) (g : nat -> Q) (s : nat) :
  Qsum (times_rates rv (map g (seq s (length rv)))) ==
  Qsum (map (fun k => nth k rv 0 * g (s + k)%nat) (seq 0 (length rv))).
Proof.
  revert s. induction rv as [|c rv IH]; intro s.
  - reflexivity.
  - unfold times_rates in *. cbn [length seq map combine].
    rewrite !Qsum_cons, IH.
    rewrite <- seq_shift, map_map. cbn [nth].
    rewrite Nat.add_0_r.
    setoid_replace (g s * c) with (c * g s) by ring.
    apply Qplus_comp; [reflexivity|].
    apply Qsum_map_ext. intros k _.
    rewrite Nat.add_succ_r. reflexivity.
Qed.

Lemma nth_error_x_sol (ds : Dataset) (value : assignment) (i : nat) :
  (i < n ds)%nat ->
  nth_error (x_sol ds value) i = Some (map (fun j => value (X i j)) (range (m ds))).
Proof.
  intro Hi. unfold x_sol.
  apply (nth_error_map_range (fun i => map (fun j => value (X i j)) (range (m ds)))).
  exact Hi.
Qed.

(** The extraction reads nothing but the [x] variables. *)
Lemma x_sol_ext (ds : Dataset) (value value' : assignment) :
  (forall i j, (i < n ds)%nat -> (j < m ds)%nat -> value (X i j) = value' (X i j)) ->
  x_sol ds value = x_sol ds value'.
Proof.
  intro H. unfold x_sol.
  apply map_ext_in. intros i Hi. apply in_range in Hi.
  apply map_ext_in. intros j Hj. apply in_range in Hj.
  apply H; assumption.
Qed.

Lemma extract_ext (ds : Dataset) (value value' : assignment) :
  (forall i j, (i < n ds)%nat -> (j < m ds)%nat -> value (X i j) = value' (X i j)) ->
  extract ds value = extract ds value'.
Proof.
  intro H. unfold extract. rewrite (x_sol_ext ds value value' H). reflexivity.
Qed.

(** C4, as the script does it: with at least one transporter and one rate
    per site, extraction always returns a result, for any raw values; x_sol
    holds the raw values of the x variables unchanged, the tons and revenue
    of each transporter are the row sums of x_sol and of x_sol times the
    rates, and nothing else the solver reports (y, u, v) is read. *)
Theorem extraction_recomputes (ds : Dataset) (value : assignment) :
  (0 < n ds)%nat -> length (r ds) = m ds ->
  exists res,
    extract ds value = Ok res /\
    res_x_sol res =
      map (fun i => map (fun j => value (X i j)) (range (m ds))) (range (n ds)) /\
    (forall i, (i < n ds)%nat ->
       exists ti ri,
         nth_error (tons_assigned res) i = Some ti /\
         ti == Qsum (map (fun j => value (X i j)) (range (m ds))) /\
         nth_error (revenue_assigned res) i = Some ri /\
         ri == Qsum (map (fun j => rate ds j * value (X i j)) (range (m ds)))) /\
    (forall value',
       (forall i j, (i < n ds)%nat -> (j < m ds)%nat -> value' (X i j) = value (X i j)) ->
       extract ds value' = Ok res).
Proof.
  intros Hn Hr.
  eexists. split; [apply extract_ok; assumption|].
  cbn [res_x_sol tons_assigned revenue_assigned].
  split; [reflexivity|]. split.
  - intros i Hi.
    exists (Qsum (map (fun j => value (X i j)) (range (m ds)))).
    exists (Qsum (times_rates (r ds) (map (fun j => value (X i j)) (range (m ds))))).
    rewrite !nth_error_map, (nth_error_x_sol ds value i Hi). cbn [option_map].
    split; [reflexivity|]. split; [reflexivity|]. split; [reflexivity|].
    unfold range, rate. rewrite <- Hr.
    apply (Qsum_times_rates (r ds) (fun j => value (X i j)) 0).
  - intros value' H.
    rewrite (extract_ext ds value' value H). apply extract_ok; assumption.
Qed.

Lemma extraction_recomputes_witness :
  exists res,
    extract scenario scenario_uneven = Ok res /\
    res_x_sol res = [[20; 10]; [0; 20]] /\
    (exists ti ri,
       nth_error (tons_assigned res) 0 = Some ti /\ ti == 30 /\
       nth_error (revenue_assigned res) 0 = Some ri /\ ri == 70).
Proof.
  destruct (extraction_recomputes scenario scenario_uneven)
    as (res & Hex & Hx & Hrows & _); [simpl; lia | reflexivity |].
  exists res. split; [exact Hex|]. split; [exact Hx|].
  destruct (Hrows 0%nat) as (ti & ri & Ht & Hti & Hr & Hri); [simpl; lia|].
  exists ti, ri. split; [exact Ht|]. split; [rewrite Hti; vm_compute; reflexivity|].
  split; [exact Hr|]. rewrite Hri. vm_compute. reflexivity.
Defined.

(** C4 as the specification words it fails: a value within 1e-6 of zero is
    kept, not clamped; an allocation of 5 tons, neither near zero nor
    within the thresholds, is accepted; and the deviation the solver
    reports (0) is not reconciled with the recomputed one. *)
Lemma extraction_keeps_raw_values :
  exists res,
    extract scenario sliver = Ok res /\
    res_x_sol res = [[1 # 10000000; 5]; [0; 0]] /\
    (Qabs (1 # 10000000) <= epsilon /\ ~ (1 # 10000000) == 0) /\
    (~ Qabs 5 <= epsilon /\ ~ minPerAssignment - epsilon <= 5) /\
    epsilon < Qabs (Qabs (assigned_tons scenario sliver 0 - target_tons scenario 0)
                    - sliver (U 0)).
Proof.
  eexists. split; [reflexivity|]. cbn [res_x_sol].
  split; [reflexivity|].
  repeat split; vm_compute; congruence.
Qed.

(** ** What model building checks *)

(** The script hands whatever model it built to the solver and extracts
    from the values the solver left, whatever the status. *)
Lemma script_unfold (solver : Solver) (ds : Dataset) :
  script solver ds =
  match build ds with
  | Ok prob => extract ds (snd (solver prob))
  | Raise e => Raise e
  end.
Proof.
  unfold script. destruct (build ds) as [prob|e]; cbn [bind]; [|reflexivity].
  destruct (solver prob). reflexivity.
Qed.

Lemma run_unfold (solver : Solver) (ds : Dataset) :
  run solver ds =
  match build ds with
  | Ok prob => ([Solve prob], extract ds (snd (solver prob)))
  | Raise e => ([], Raise e)
  end.
Proof.
  unfold run. destruct (build ds) as [prob|e]; [|reflexivity].
  destruct (solver prob). reflexivity.
Qed.

Lemma not_long_enough_iff (ds : Dataset) :
  ~ long_enough ds <->
  (length (S ds) < m ds \/ length (r ds) < m ds \/ length (p ds) < n ds)%nat.
Proof.
  unfold long_enough. lia.
Qed.




Example build_short_demands : build short_demands = Raise IndexError.
Proof. reflexivity. Qed.

(** ** Capacity and infeasibility *)

(** No allocation exceeds the upper threshold. *)
Lemma allocation_le_max (ds : Dataset) (a : assignment) (i j : nat) :
  satisfies ds a -> (i < n ds)%nat -> (j < m ds)%nat ->
  a (X i j) <= maxPerAssignment.
Proof.
  intros Hs Hi Hj.
  destruct (semi_continuous ds a i j Hs Hi Hj) as [[_ Hx] | [_ [_ Hx]]].
  - rewrite Hx. unfold maxPerAssignment. discriminate.
  - exact Hx.
Qed.

Lemma length_range (k : nat) : length (range k) = k.
Proof. apply length_seq. Qed.

(** What [n] transporters can deliver to one site. *)
Lemma delivered_le_capacity (ds : Dataset) (a : assignment) (j : nat) :
  satisfies ds a -> (j < m ds)%nat ->
  delivered ds a j <= inject_Z (Z.of_nat (n ds)) * maxPerAssignment.
Proof.
  intros Hs Hj. unfold delivered.
  rewrite <- (length_range (n ds)) at 2.
  apply Qsum_le_bound. intros i Hi. apply in_range in Hi.
  apply (allocation_le_max ds a i j Hs Hi Hj).
Qed.

Lemma example_alloc_feasible : feasible (model example) example_alloc.
Proof. apply feasible_model_iff. check_satisfies. Qed.

Lemma overload_unsatisfiable (ds : Dataset) (a : assignment) (j : nat) :
  (j < m ds)%nat ->
  inject_Z (Z.of_nat (n ds)) * maxPerAssignment < demand ds j ->
  ~ satisfies ds a.
Proof.
  intros Hj Hover Hs.
  pose proof (delivered_le_capacity ds a j Hs Hj) as Hcap.
  rewrite (sat_demand ds a Hs j Hj) in Hcap.
  apply (Qlt_irrefl (demand ds j)).
  apply Qle_lt_trans with (inject_Z (Z.of_nat (n ds)) * maxPerAssignment); assumption.
Qed.

Lemma example_long_enough : long_enough example.
Proof. unfold long_enough. simpl. lia. Qed.

Lemma overloaded_long_enough : long_enough overloaded.
Proof. unfold long_enough. simpl. lia. Qed.

(** C6, as the script does it: when a single site asks for more than
    n * maxPerAssignment tons, the model has no feasible assignment; the
    script does not look at the solver's status and extracts from whatever
    values the solver left. *)
Theorem site_overload_infeasible (ds : Dataset) (prob : LpProblem) (j : nat) (Sj : Q) :
  build ds = Ok prob ->
  nth_error (S ds) j = Some Sj ->
  (j < m ds)%nat ->
  inject_Z (Z.of_nat (n ds)) * maxPerAssignment < Sj ->
  (forall a, ~ feasible prob a) /\
  (forall solver : Solver, script solver ds = extract ds (snd (solver prob))).
Proof.
  intros Hb HS Hj Hover. split.
  - destruct (build_Ok_inv ds prob Hb) as [HL ->].
    intros a Ha. apply feasible_model_iff in Ha.
    apply (overload_unsatisfiable ds a j Hj); [|exact Ha].
    unfold demand. rewrite (nth_error_nth _ _ 0 HS). exact Hover.
  - intro solver. rewrite script_unfold, Hb. reflexivity.
Qed.

Lemma site_overload_infeasible_witness :
  (forall a, ~ feasible (model overloaded) a) /\
  (forall solver : Solver,
     script solver overloaded = extract overloaded (snd (solver (model overloaded)))).
Proof.
  apply (site_overload_infeasible overloaded (model overloaded) 0 60).
  - reflexivity.
  - reflexivity.
  - simpl. lia.
  - vm_compute. reflexivity.
Defined.

(** C6 as the specification words it fails.  The script's own data asks
    for 1689.839 tons in total, more than 18 * 50 = 900, and its model has a
    feasible assignment, which the script reports.  And where the model has
    no feasible assignment at all, the script still returns an allocation
    for whatever the solver leaves in the variables. *)
Lemma total_demand_above_capacity :
  inject_Z (Z.of_nat (n example)) * maxPerAssignment < Qsum (S example) /\
  build example = Ok (model example) /\
  feasible (model example) example_alloc /\
  (exists res, script (fun _ => (LpStatusOptimal, example_alloc)) example = Ok res) /\
  inject_Z (Z.of_nat (n overloaded)) * maxPerAssignment < Qsum (S overloaded) /\
  (forall a, ~ feasible (model overloaded) a) /\
  (forall solver : Solver, exists res, script solver overloaded = Ok res).
Proof.
  split; [vm_compute; reflexivity|].
  split; [apply build_ok, example_long_enough|].
  split; [exact example_alloc_feasible|].
  split.
  { rewrite script_unfold, (build_ok example example_long_enough). cbn [snd].
    rewrite extract_ok; [eauto | simpl; lia | reflexivity]. }
  split; [vm_compute; reflexivity|].
  split.
  { intros a Ha. apply feasible_model_iff in Ha.
    apply (overload_unsatisfiable overloaded a 0); [simpl; lia | vm_compute; reflexivity | exact Ha]. }
  intro solver.
  rewrite script_unfold, (build_ok overloaded overloaded_long_enough).
  rewrite extract_ok; [eauto | simpl; lia | reflexivity].
Qed.

(** ** A site without demand *)

Lemma zero_demand_forces (ds : Dataset) (a : assignment) (i j : nat) :
  satisfies ds a -> (i < n ds)%nat -> (j < m ds)%nat ->
  demand ds j == 0 ->
  a (X i j) == 0 /\ a (Y i j) == 0.
Proof.
  intros Hs Hi Hj Hd.
  assert (Hx : a (X i j) == 0).
  { apply (Qsum_zero_terms (fun i => a (X i j)) (range (n ds))).
    - intros k Hk. apply in_range in Hk. apply (sat_x ds a Hs k j Hk Hj).
    - rewrite <- Hd. apply (sat_demand ds a Hs j Hj).
    - apply in_range. exact Hi. }
  split; [exact Hx|].
  destruct (semi_continuous ds a i j Hs Hi Hj) as [[Hy _] | [_ [Hlo _]]]; [exact Hy|].
  exfalso. rewrite Hx in Hlo. unfold minPerAssignment in Hlo. lra.
Qed.

(** The objective reads the deviation variables only. *)
Lemma objective_ext (ds : Dataset) (a a' : assignment) :
  (forall i, a (U i) == a' (U i)) ->
  (forall i, a (V i) == a' (V i)) ->
  eval a (objective_expr ds) == eval a' (objective_expr ds).
Proof.
  intros Hu Hv. rewrite !eval_objective.
  rewrite (Qsum_map_ext (fun i => a (U i)) (fun i => a' (U i))) by (intros; apply Hu).
  rewrite (Qsum_map_ext (fun i => a (V i)) (fun i => a' (V i))) by (intros; apply Hv).
  reflexivity.
Qed.

(** C7, as the script does it: at a site with demand 0 every feasible
    assignment has [x[i][j] = 0] for all transporters (coverage together
    with [x >= 0]), and then [y[i][j] = 0] as well, because
    [x[i][j] >= 10 * y[i][j]]; the indicators do not occur in the objective,
    whose value depends on the deviation variables alone. *)
Theorem zero_demand_site (ds : Dataset) (prob : LpProblem) (j : nat) (Sj : Q) :
  build ds = Ok prob ->
  nth_error (S ds) j = Some Sj ->
  (j < m ds)%nat ->
  Sj == 0 ->
  (forall a, feasible prob a ->
     forall i, (i < n ds)%nat -> a (X i j) == 0 /\ a (Y i j) == 0) /\
  (forall a a',
     (forall i, a (U i) == a' (U i)) ->
     (forall i, a (V i) == a' (V i)) ->
     eval a (objective prob) == eval a' (objective prob)).
Proof.
  intros Hb HS Hj H0.
  destruct (build_Ok_inv ds prob Hb) as [HL ->].
  split.
  - intros a Ha i Hi. apply feasible_model_iff in Ha.
    apply (zero_demand_forces ds a i j Ha Hi Hj).
    unfold demand. rewrite (nth_error_nth _ _ 0 HS). exact H0.
  - intros a a' Hu Hv. cbn [model objective]. apply objective_ext; assumption.
Qed.

Lemma zero_demand_site_witness :
  example_alloc (X 3 6) == 0 /\ example_alloc (Y 3 6) == 0.
Proof.
  destruct (zero_demand_site example (model example) 6 0) as [Hall _].
  - vm_compute. reflexivity.
  - reflexivity.
  - simpl. lia.
  - reflexivity.
  - apply (Hall example_alloc example_alloc_feasible 3%nat). simpl. lia.
Defined.

(** C7 as the specification words it fails: site 6 of the script's own
    data has demand 0, the model is feasible, and no feasible assignment
    sets an indicator of that site to 1. *)
Lemma zero_demand_indicator_forced :
  nth_error (S example) 6 = Some 0 /\
  build example = Ok (model example) /\
  feasible (model example) example_alloc /\
  ~ exists a, feasible (model example) a /\ a (Y 0 6) == 1.
Proof.
  split; [reflexivity|]. split; [apply build_ok, example_long_enough|].
  split; [exact example_alloc_feasible|].
  intros (a & Ha & Hy). apply feasible_model_iff in Ha.
  destruct (zero_demand_forces example a 0 6 Ha) as [_ Hy0];
    [simpl; lia | simpl; lia | reflexivity |].
  rewrite Hy0 in Hy. discriminate Hy.
Qed.

(** ** Objective and targets *)

Lemma Qsum_nth_range (l : list Q) :
  Qsum l == Qsum (map (fun j => nth j l 0) (range (length l))).
Proof.
  unfold range. induction l as [|c l IH].
  - reflexivity.
  - cbn [length seq map nth]. rewrite !Qsum_cons.
    rewrite <- seq_shift, map_map. cbn [nth].
    rewrite <- IH. reflexivity.
Qed.

(** C8, as the script does it: the model minimises
    [alpha * lpSum(u) + beta * lpSum(v)] where alpha = 1.0 and beta = 0.001
    are constants written in the script, the same for every dataset and not
    supplied by a caller; the targets are derived as T = sum of the
    demands, R = sum of demand times rate, t[i] = p[i] * T and
    q[i] = p[i] * R. *)
Theorem objective_and_targets (ds : Dataset) (prob : LpProblem) :
  build ds = Ok prob ->
  objSense prob = LpMinimize /\
  objective prob =
    EAdd (EScale alpha (ElpSum (map (fun i => EVar (U i)) (range (n ds)))))
         (EScale beta (ElpSum (map (fun i => EVar (V i)) (range (n ds))))) /\
  (alpha = 1 /\ beta = 1 # 1000) /\
  (forall ds' prob', build ds' = Ok prob' -> n ds' = n ds ->
                     objective prob' = objective prob) /\
  (forall a,
     eval a (objective prob) ==
     alpha * Qsum (map (fun i => a (U i)) (range (n ds))) +
     beta * Qsum (map (fun i => a (V i)) (range (n ds)))) /\
  T ds = Qsum (S ds) /\
  (length (S ds) = m ds -> T ds == Qsum (map (fun j => nth j (S ds) 0) (range (m ds)))) /\
  R ds = Ok (Qsum (map (fun j => nth j (S ds) 0 * nth j (r ds) 0) (range (m ds)))) /\
  t ds = Ok (map (fun i => nth i (p ds) 0 * T ds) (range (n ds))) /\
  (forall R', R ds = Ok R' ->
     q ds R' = Ok (map (fun i => nth i (p ds) 0 * R') (range (n ds)))).
Proof.
  intro Hb.
  destruct (build_Ok_inv ds prob Hb) as [HL ->].
  pose proof HL as (HS & Hr & Hp).
  cbn [model objSense objective].
  split; [reflexivity|]. split; [reflexivity|].
  split; [split; reflexivity|].
  split.
  { intros ds' prob' Hb' Hn. destruct (build_Ok_inv ds' prob' Hb') as [_ ->].
    cbn [model objective]. unfold objective_expr. rewrite Hn. reflexivity. }
  split; [intro a; rewrite eval_objective; reflexivity|].
  split; [reflexivity|].
  split; [intro Hlen; unfold T; rewrite <- Hlen; apply Qsum_nth_range|].
  split; [apply (R_ok ds HS Hr)|].
  split; [apply (t_ok ds HL)|].
  intros R' _. apply (q_ok ds R' HL).
Qed.

Lemma objective_and_targets_witness :
  objSense (model scenario) = LpMinimize /\
  objective (model scenario) =
    EAdd (EScale 1 (ElpSum [EVar (U 0); EVar (U 1)]))
         (EScale (1 # 1000) (ElpSum [EVar (V 0); EVar (V 1)])) /\
  T scenario == 50 /\
  (exists R', R scenario = Ok R' /\ R' == 130) /\
  (exists tl, t scenario = Ok tl /\ Forall (fun ti => ti == 25) tl).
Proof.
  destruct (objective_and_targets scenario (model scenario))
    as (Hs & Ho & _ & _ & _ & HT & _ & HR & Ht & _); [reflexivity|].
  split; [exact Hs|]. split; [exact Ho|].
  split; [rewrite HT; vm_compute; reflexivity|].
  split.
  - eexists. split; [exact HR|]. vm_compute. reflexivity.
  - eexists. split; [exact Ht|].
    repeat constructor; vm_compute; reflexivity.
Defined.

(** C8 as the specification words it fails: the weights are not supplied
    by a caller.  The model of the scenario has the weights 1 and 1/1000,
    and no dataset makes the script build a model whose objective has the
    weights 2 and 3. *)
Lemma weights_are_fixed :
  build scenario = Ok (model scenario) /\
  objective (model scenario) =
    EAdd (EScale 1 (ElpSum [EVar (U 0); EVar (U 1)]))
         (EScale (1 # 1000) (ElpSum [EVar (V 0); EVar (V 1)])) /\
  ~ exists ds prob e1 e2,
      build ds = Ok prob /\ objective prob = EAdd (EScale 2 e1) (EScale 3 e2).
Proof.
  split; [reflexivity|]. split; [reflexivity|].
  intros (ds & prob & e1 & e2 & Hb & Ho).
  destruct (build_Ok_inv ds prob Hb) as [_ ->].
  cbn [model objective] in Ho. unfold objective_expr, alpha in Ho.
  discriminate Ho.
Qed.

(** ** Extraction is a function of the x values *)

(** C9: extraction is a function of the raw x values alone: two raw
    assignments that agree on the x variables give identical results (same
    x_sol, tons and revenue), so extracting twice from the same raw
    assignment gives the same result; with at least one transporter and one
    rate per site that result is an allocation. *)
Theorem extraction_idempotent (ds : Dataset) (value value' : assignment) :
  (forall i j, (i < n ds)%nat -> (j < m ds)%nat -> value (X i j) = value' (X i j)) ->
  extract ds value = extract ds value' /\
  ((0 < n ds)%nat -> length (r ds) = m ds ->
   exists res, extract ds value = Ok res /\ extract ds value' = Ok res).
Proof.
  intro H. split; [apply extract_ext; exact H|].
  intros Hn Hr. eexists. split; [apply extract_ok; assumption|].
  rewrite <- (extract_ext ds value value' H). apply extract_ok; assumption.
Qed.

Lemma extraction_idempotent_witness :
  extract scenario scenario_uneven = extract scenario (with_deviation scenario_uneven 0 7 9) /\
  exists res, extract scenario scenario_uneven = Ok res /\
              extract scenario (with_deviation scenario_uneven 0 7 9) = Ok res.
Proof.
  destruct (extraction_idempotent scenario scenario_uneven
                                  (with_deviation scenario_uneven 0 7 9))
    as (Heq & Hex).
  - intros i j _ _. reflexivity.
  - split; [exact Heq|]. apply Hex; [simpl; lia | reflexivity].
Defined.

(** ** Conservation of tonnage *)

Lemma extract_Ok_inv (ds : Dataset) (value : assignment) (res : AllocationResult) :
  extract ds value = Ok res ->
  res_x_sol res = x_sol ds value /\ tons_assigned res = map Qsum (x_sol ds value).
Proof.
  unfold extract.
  destruct (sum_axis1 (x_sol ds value)) as [tons|] eqn:Et; cbn [bind]; [|discriminate].
  destruct (mul_broadcast (x_sol ds value) (m ds) (r ds)) as [prod|]; cbn [bind];
    [|discriminate].
  destruct (sum_axis1 prod) as [rev|]; cbn [bind]; [|discriminate].
  intro H. injection H as <-. cbn [res_x_sol tons_assigned].
  split; [reflexivity|].
  unfold sum_axis1 in Et. destruct (x_sol ds value); [discriminate|].
  injection Et as <-. reflexivity.
Qed.

Lemma total_assigned (ds : Dataset) (a : assignment) :
  (forall j, (j < m ds)%nat -> delivered ds a j == demand ds j) ->
  length (S ds) = m ds ->
  Qsum (map (fun i => assigned_tons ds a i) (range (n ds))) == T ds.
Proof.
  intros Hcov Hlen. unfold assigned_tons.
  rewrite (Qsum_exchange (fun i j => a (X i j))).
  rewrite (Qsum_map_ext _ (demand ds)).
  - unfold T, demand. rewrite <- Hlen. symmetry. apply Qsum_nth_range.
  - intros j Hj. apply in_range in Hj. apply (Hcov j Hj).
Qed.

(** C10, as the script does it: when the demand list has one entry per
    site (len(S) = m), every assignment that satisfies the demand
    constraints assigns T tons in total: the sum over transporters of the
    sum over sites of x equals the sum of the demands, and the
    per-transporter tons that extraction computes sum to T. *)
Theorem tonnage_conservation (ds : Dataset) (a : assignment) :
  length (S ds) = m ds ->
  (forall j, (j < m ds)%nat -> holds a (demand_constraint ds (nth j (S ds) 0) j)) ->
  Qsum (map (fun i => Qsum (map (fun j => a (X i j)) (range (m ds)))) (range (n ds)))
    == T ds /\
  T ds == Qsum (map (fun j => nth j (S ds) 0) (range (m ds))) /\
  (forall res, extract ds a = Ok res -> Qsum (tons_assigned res) == T ds) /\
  ((0 < n ds)%nat -> length (r ds) = m ds ->
   exists res, extract ds a = Ok res /\ Qsum (tons_assigned res) == T ds).
Proof.
  intros Hlen Hcov.
  assert (Hd : forall j, (j < m ds)%nat -> delivered ds a j == demand ds j).
  { intros j Hj. specialize (Hcov j Hj).
    unfold holds, demand_constraint in Hcov. cbn [sense lhs rhs] in Hcov.
    rewrite eval_demand_lhs in Hcov. exact Hcov. }
  pose proof (total_assigned ds a Hd Hlen) as Htot.
  assert (Hres : forall res, extract ds a = Ok res -> Qsum (tons_assigned res) == T ds).
  { intros res Hex. destruct (extract_Ok_inv ds a res Hex) as [_ ->].
    unfold x_sol. rewrite map_map. exact Htot. }
  split; [exact Htot|].
  split; [unfold T; rewrite <- Hlen; apply Qsum_nth_range|].
  split; [exact Hres|].
  intros Hn Hr. eexists. split; [apply extract_ok; assumption|].
  apply Hres. apply extract_ok; assumption.
Qed.

Lemma tonnage_conservation_witness :
  T scenario == 50 /\
  exists res, extract scenario scenario_uneven = Ok res /\
              Qsum (tons_assigned res) == T scenario.
Proof.
  destruct (tonnage_conservation scenario scenario_uneven) as (_ & _ & _ & Hex).
  - reflexivity.
  - intros j Hj. simpl in Hj. below j; vm_compute; reflexivity.
  - split; [vm_compute; reflexivity|].
    apply Hex; [simpl; lia | reflexivity].
Defined.

(** C10 as the specification words it fails: with one site and a demand
    list of two entries the model is built, an assignment of 20 tons
    satisfies the only demand constraint, extraction reports 20 tons in
    total, and T = sum(S) is 50. *)
Lemma tonnage_short_of_total :
  build surplus = Ok (model surplus) /\
  (forall j, (j < m surplus)%nat ->
     holds scenario_uneven (demand_constraint surplus (nth j (S surplus) 0) j)) /\
  T surplus == 50 /\
  Qsum (map (fun i => Qsum (map (fun j => scenario_uneven (X i j)) (range (m surplus))))
            (range (n surplus))) == 20 /\
  (exists res, extract surplus scenario_uneven = Ok res /\ Qsum (tons_assigned res) == 20) /\
  ~ 20 == T surplus.
Proof.
  split; [reflexivity|].
  split; [intros j Hj; simpl in Hj; below j; vm_compute; reflexivity|].
  split; [vm_compute; reflexivity|].
  split; [vm_compute; reflexivity|].
  split; [eexists; split; [reflexivity | vm_compute; reflexivity]|].
  vm_compute. discriminate.
Qed.

(** * Further properties of the script *)

(** ** Shape of the model *)

Lemma in_linking (ds : Dataset) (c : LpConstraint) :
  In c (linking_constraints ds) <->
  exists i j, (i < n ds)%nat /\ (j < m ds)%nat /\ (c = link_upper i j \/ c = link_lower i j).
Proof.
  unfold linking_constraints. rewrite in_flat_map. split.
  - intros (i & Hi & Hc). apply in_flat_map in Hc. destruct Hc as (j & Hj & Hc).
    apply in_range in Hi. apply in_range in Hj.
    exists i, j. simpl in Hc. intuition auto.
  - intros (i & j & Hi & Hj & Hc). exists i. split; [apply in_range; exact Hi|].
    apply in_flat_map. exists j. split; [apply in_range; exact Hj|].
    simpl. intuition auto.
Qed.

Lemma in_deviation (k : nat) (w : nat -> var) (e : nat -> LpExpr) (tg : nat -> Q)
      (c : LpConstraint) :
  In c (concat (map (fun i => [dev_above (w i) (e i) (tg i); dev_below (w i) (e i) (tg i)])
                    (range k))) <->
  exists i, (i < k)%nat /\
            (c = dev_above (w i) (e i) (tg i) \/ c = dev_below (w i) (e i) (tg i)).
Proof.
  rewrite in_concat. split.
  - intros (l & Hl & Hc). apply in_map_iff in Hl. destruct Hl as (i & <- & Hi).
    apply in_range in Hi. exists i. simpl in Hc. intuition auto.
  - intros (i & Hi & Hc).
    exists [dev_above (w i) (e i) (tg i); dev_below (w i) (e i) (tg i)]. split.
    + apply in_map_iff. exists i. split; [reflexivity | apply in_range; exact Hi].
    + simpl. intuition auto.
Qed.

(** X1: the built model has the four families of constraints the script
    adds and nothing else: a constraint belongs to it exactly when it is
    the demand equality of a site, one of the two linking inequalities of a
    pair, or one of the two deviation inequalities of a transporter for
    tonnage or for revenue.  In particular no quota is a hard constraint. *)
Theorem model_constraints_exhaustive (ds : Dataset) (prob : LpProblem) (c : LpConstraint) :
  build ds = Ok prob ->
  (In c (constraints prob) <->
   (exists j, (j < m ds)%nat /\ c = demand_constraint ds (nth j (S ds) 0) j) \/
   (exists i j, (i < n ds)%nat /\ (j < m ds)%nat /\
                (c = link_upper i j \/ c = link_lower i j)) \/
   (exists i, (i < n ds)%nat /\
              (c = dev_above (U i) (total_tons ds i) (nth i (p ds) 0 * T ds) \/
               c = dev_below (U i) (total_tons ds i) (nth i (p ds) 0 * T ds))) \/
   (exists i, (i < n ds)%nat /\
              (c = dev_above (V i) (revenue_expr ds i) (target_revenue ds i) \/
               c = dev_below (V i) (revenue_expr ds i) (target_revenue ds i)))).
Proof.
  intro Hb. destruct (build_Ok_inv ds prob Hb) as [_ ->].
  unfold model. cbn [constraints].
  rewrite !in_app_iff, in_linking.
  rewrite (in_deviation (n ds) U (total_tons ds) (target_tons ds)).
  rewrite (in_deviation (n ds) V (revenue_expr ds) (target_revenue ds)).
  rewrite in_map_iff.
  split.
  - intros [(j & <- & Hj) | H]; [left | right; exact H].
    apply in_range in Hj. exists j. split; [exact Hj | reflexivity].
  - intros [(j & Hj & ->) | H]; [left | right; exact H].
    exists j. split; [reflexivity | apply in_range; exact Hj].
Qed.

Lemma model_constraints_exhaustive_witness :
  In (link_lower 1 0) (constraints (model scenario)) /\
  ~ In (mkConstraint (EVar (X 0 0)) LE (EConst 25)) (constraints (model scenario)).
Proof.
  split.
  - apply (model_constraints_exhaustive scenario (model scenario)); [reflexivity|].
    right. left. exists 1%nat, 0%nat. simpl. repeat split; auto.
  - intro H.
    apply (model_constraints_exhaustive scenario (model scenario)) in H; [|reflexivity].
    destruct H as [(j & _ & H) | [(i & j & _ & _ & [H | H]) | [(i & _ & [H | H]) | (i & _ & [H | H])]]];
      discriminate H.
Defined.

Lemma length_concat_pairs {A B : Type} (f g : A -> B) (l : list A) :
  length (concat (map (fun i => [f i; g i]) l)) = (2 * length l)%nat.
Proof.
  induction l as [|c l IH]; simpl; [reflexivity|]. rewrite IH. lia.
Qed.

Lemma length_concat_rows {A : Type} (f : nat -> nat -> A) (k k' : nat) :
  length (concat (map (fun i => map (fun j => f i j) (range k')) (range k))) = (k * k')%nat.
Proof.
  unfold range. generalize 0%nat at 2.
  induction k as [|k IH]; intro s; simpl; [reflexivity|].
  rewrite length_app, length_map, length_seq, IH. reflexivity.
Qed.

Lemma filter_none {A : Type} (f : A -> bool) (l : list A) :
  (forall c, In c l -> f c = false) -> filter f l = [].
Proof.
  induction l as [|c l IH]; intro H; simpl; [reflexivity|].
  rewrite (H c) by (simpl; auto). apply IH. intros; apply H; simpl; auto.
Qed.

Lemma filter_all {A : Type} (f : A -> bool) (l : list A) :
  (forall c, In c l -> f c = true) -> filter f l = l.
Proof.
  induction l as [|c l IH]; intro H; simpl; [reflexivity|].
  rewrite (H c) by (simpl; auto). f_equal. apply IH. intros; apply H; simpl; auto.
Qed.

Lemma in_concat_rows {A : Type} (f : nat -> nat -> A) (k k' : nat) (c : A) :
  In c (concat (map (fun i => map (fun j => f i j) (range k')) (range k))) ->
  exists i j, c = f i j.
Proof.
  intro H. apply in_concat in H. destruct H as (l & Hl & Hc).
  apply in_map_iff in Hl. destruct Hl as (i & <- & _).
  apply in_map_iff in Hc. destruct Hc as (j & <- & _). eauto.
Qed.

(** X2: the built model has m + 2*n*m + 4*n constraints over 2*n*m + 2*n
    variables, of which the n*m indicators are the only integer ones. *)
Theorem model_size (ds : Dataset) (prob : LpProblem) :
  build ds = Ok prob ->
  length (constraints prob) = (m ds + 2 * (n ds * m ds) + 4 * n ds)%nat /\
  length (variables prob) = (2 * (n ds * m ds) + 2 * n ds)%nat /\
  length (filter (fun lv => match cat lv with LpInteger => true | _ => false end)
                 (variables prob)) = (n ds * m ds)%nat.
Proof.
  intro Hb. destruct (build_Ok_inv ds prob Hb) as [_ ->].
  unfold model. cbn [constraints variables].
  split; [|split].
  - rewrite !length_app, length_map, length_range, !length_concat_pairs, length_range.
    unfold linking_constraints.
    rewrite (flat_map_constant_length (c := (2 * m ds)%nat)).
    + rewrite length_range. lia.
    + intros i _. rewrite (flat_map_constant_length (c := 2%nat)).
      * rewrite length_range. lia.
      * reflexivity.
  - rewrite !length_app. unfold x, y, u, v.
    rewrite !length_concat_rows, !length_map, !length_range. lia.
  - rewrite !filter_app, !length_app.
    rewrite (filter_none _ (concat (x ds))), (filter_all _ (concat (y ds))),
      (filter_none _ (u ds)), (filter_none _ (v ds)).
    + unfold y. rewrite length_concat_rows. simpl. lia.
    + intros c Hc. apply in_map_iff in Hc. destruct Hc as (i & <- & _). reflexivity.
    + intros c Hc. apply in_map_iff in Hc. destruct Hc as (i & <- & _). reflexivity.
    + intros c Hc. apply in_concat_rows in Hc. destruct Hc as (i & j & ->). reflexivity.
    + intros c Hc. apply in_concat_rows in Hc. destruct Hc as (i & j & ->). reflexivity.
Qed.

Lemma model_size_witness :
  length (constraints (model example)) = 368%nat /\
  length (variables (model example)) = 324%nat.
Proof.
  destruct (model_size example (model example)) as (Hc & Hv & _).
  - vm_compute. reflexivity.
  - split; [exact Hc | exact Hv].
Defined.

(** ** The objective is the weighted absolute deviation *)

Lemma Qsum_le_compat {A : Type} (f g : A -> Q) (l : list A) :
  (forall c, In c l -> f c <= g c) -> Qsum (map f l) <= Qsum (map g l).
Proof.
  induction l as [|c l IH]; intro H; simpl.
  - apply Qle_refl.
  - rewrite !Qsum_cons.
    apply Qplus_le_compat; [apply H; simpl; auto | apply IH; intros; apply H; simpl; auto].
Qed.

Lemma Qabs_Qsum {A : Type} (f : A -> Q) (l : list A) :
  Qabs (Qsum (map f l)) <= Qsum (map (fun c => Qabs (f c)) l).
Proof.
  induction l as [|c l IH]; simpl.
  - rewrite Qsum_nil. apply Qle_refl.
  - rewrite !Qsum_cons.
    apply Qle_trans with (Qabs (f c) + Qabs (Qsum (map f l))); [apply Qabs_triangle|].
    apply Qplus_le_compat; [apply Qle_refl | exact IH].
Qed.

Lemma Qsum_map_minus {A : Type} (f g : A -> Q) (l : list A) :
  Qsum (map (fun c => f c - g c) l) == Qsum (map f l) - Qsum (map g l).
Proof.
  induction l as [|c l IH]; simpl.
  - rewrite Qsum_nil. ring.
  - rewrite !Qsum_cons, IH. ring.
Qed.

Lemma Qsum_map_scale_r {A : Type} (c : Q) (f : A -> Q) (l : list A) :
  Qsum (map (fun b => f b * c) l) == Qsum (map f l) * c.
Proof.
  induction l as [|b l IH]; simpl.
  - rewrite Qsum_nil. ring.
  - rewrite !Qsum_cons, IH. ring.
Qed.

Lemma Qsum_map_scale_l {A : Type} (c : Q) (f : A -> Q) (l : list A) :
  Qsum (map (fun b => c * f b) l) == c * Qsum (map f l).
Proof.
  induction l as [|b l IH]; simpl.
  - rewrite Qsum_nil. ring.
  - rewrite !Qsum_cons, IH. ring.
Qed.

Lemma tighten_satisfies (ds : Dataset) (a : assignment) :
  satisfies ds a -> satisfies ds (tighten ds a).
Proof.
  intros [Hx Hy Hu0 Hv0 Hd Hup Hlo Hua Hub Hva Hvb].
  constructor; try assumption; intros i Hi;
    try change (assigned_tons ds (tighten ds a) i) with (assigned_tons ds a i);
    try change (assigned_revenue ds (tighten ds a) i) with (assigned_revenue ds a i);
    unfold tighten.
  - apply Qabs_nonneg.
  - apply Qabs_nonneg.
  - apply Qle_Qabs.
  - rewrite <- Qabs_opp. apply Qle_Qabs.
  - apply Qle_Qabs.
  - rewrite <- Qabs_opp. apply Qle_Qabs.
Qed.

Lemma weighted_deviation_le (ds : Dataset) (a : assignment) :
  satisfies ds a -> weighted_deviation ds a <= eval a (objective_expr ds).
Proof.
  intro Hs. rewrite eval_objective. unfold weighted_deviation.
  assert (Hu : Qsum (map (fun i => Qabs (assigned_tons ds a i - target_tons ds i))
                         (range (n ds)))
               <= Qsum (map (fun i => a (U i)) (range (n ds)))).
  { apply Qsum_le_compat. intros i Hi. apply in_range in Hi.
    apply (deviation_bounds ds a i Hi Hs). }
  assert (Hv : Qsum (map (fun i => Qabs (assigned_revenue ds a i - target_revenue ds i))
                         (range (n ds)))
               <= Qsum (map (fun i => a (V i)) (range (n ds)))).
  { apply Qsum_le_compat. intros i Hi. apply in_range in Hi.
    apply (deviation_bounds ds a i Hi Hs). }
  unfold alpha, beta. lra.
Qed.

(** X3: the two-inequality linearization is exact.  Any feasible
    assignment stays feasible when every u and v is lowered to the absolute
    deviation of its allocation; the objective then equals the weighted
    total absolute deviation alpha * sum |tons - target| +
    beta * sum |revenue - target| and is no larger than before; at an
    optimum the objective is that weighted deviation. *)
Theorem linearization_exact (ds : Dataset) (prob : LpProblem) (a : assignment) :
  build ds = Ok prob ->
  feasible prob a ->
  feasible prob (tighten ds a) /\
  (forall i j, tighten ds a (X i j) = a (X i j) /\ tighten ds a (Y i j) = a (Y i j)) /\
  eval (tighten ds a) (objective prob) == weighted_deviation ds a /\
  weighted_deviation ds a <= eval a (objective prob) /\
  (optimal prob a -> eval a (objective prob) == weighted_deviation ds a).
Proof.
  intros Hb Ha. destruct (build_Ok_inv ds prob Hb) as [_ ->].
  apply feasible_model_iff in Ha.
  pose proof (tighten_satisfies ds a Ha) as Ht.
  cbn [model objective].
  split; [apply feasible_model_iff; exact Ht|].
  split; [intros i j; split; reflexivity|].
  split; [rewrite eval_objective; reflexivity|].
  split; [apply weighted_deviation_le; exact Ha|].
  intros [_ Hmin]. cbn [model objSense objective] in Hmin.
  apply Qle_antisym; [|apply weighted_deviation_le; exact Ha].
  apply Qle_trans with (eval (tighten ds a) (objective_expr ds)).
  - apply Hmin. apply feasible_model_iff. exact Ht.
  - rewrite eval_objective. apply Qle_refl.
Qed.

Lemma linearization_exact_witness :
  feasible (model scenario) (tighten scenario scenario_uneven) /\
  weighted_deviation scenario scenario_uneven <=
    eval scenario_uneven (objective (model scenario)) /\
  eval scenario_even (objective (model scenario)) == weighted_deviation scenario scenario_even.
Proof.
  destruct (linearization_exact scenario (model scenario) scenario_uneven)
    as (Hf & _ & _ & Hle & _); [reflexivity | exact scenario_uneven_feasible |].
  destruct (linearization_exact scenario (model scenario) scenario_even)
    as (_ & _ & _ & _ & Hopt); [reflexivity | exact scenario_even_feasible |].
  split; [exact Hf|]. split; [exact Hle|].
  apply Hopt. exact scenario_even_optimal.
Defined.

(** ** Revenue is conserved, and quotas that do not add up cost deviation *)

Lemma total_assigned_revenue (ds : Dataset) (a : assignment) :
  (forall j, (j < m ds)%nat -> delivered ds a j == demand ds j) ->
  Qsum (map (fun i => assigned_revenue ds a i) (range (n ds))) == total_revenue ds.
Proof.
  intro Hcov. unfold assigned_revenue, total_revenue.
  rewrite (Qsum_exchange (fun i j => rate ds j * a (X i j))).
  apply Qsum_map_ext. intros j Hj. apply in_range in Hj.
  rewrite Qsum_map_scale_l.
  change (Qsum (map (fun i => a (X i j)) (range (n ds)))) with (delivered ds a j).
  rewrite (Hcov j Hj). ring.
Qed.

Lemma coverage_delivered (ds : Dataset) (a : assignment) :
  (forall j, (j < m ds)%nat -> holds a (demand_constraint ds (nth j (S ds) 0) j)) ->
  forall j, (j < m ds)%nat -> delivered ds a j == demand ds j.
Proof.
  intros Hcov j Hj. specialize (Hcov j Hj).
  unfold holds, demand_constraint in Hcov. cbn [sense lhs rhs] in Hcov.
  rewrite eval_demand_lhs in Hcov. exact Hcov.
Qed.

(** X4: every assignment that satisfies the demand constraints earns the
    transporters R in total, the sum over sites of demand times rate
    (line 19); with at least one transporter and one rate per site the
    revenues that extraction computes (line 70) exist and sum to R. *)
Theorem revenue_conservation (ds : Dataset) (a : assignment) (R' : Q) :
  R ds = Ok R' ->
  (forall j, (j < m ds)%nat -> holds a (demand_constraint ds (nth j (S ds) 0) j)) ->
  Qsum (map (fun i => Qsum (map (fun j => nth j (r ds) 0 * a (X i j)) (range (m ds))))
            (range (n ds))) == R' /\
  ((0 < n ds)%nat -> length (r ds) = m ds ->
   exists res, extract ds a = Ok res /\ Qsum (revenue_assigned res) == R').
Proof.
  intros HR Hcov.
  assert (HR' : R' = total_revenue ds).
  { destruct (le_lt_dec (m ds) (length (S ds))) as [HS|HS];
      [destruct (le_lt_dec (m ds) (length (r ds))) as [Hr|Hr] | ].
    - rewrite (R_ok ds HS Hr) in HR. congruence.
    - rewrite R_raises in HR by lia. discriminate.
    - rewrite R_raises in HR by lia. discriminate. }
  subst R'.
  pose proof (total_assigned_revenue ds a (coverage_delivered ds a Hcov)) as Htot.
  split; [exact Htot|].
  intros Hn Hr. eexists. split; [apply extract_ok; assumption|].
  cbn [revenue_assigned]. rewrite <- Htot.
  unfold x_sol. rewrite !map_map.
  apply Qsum_map_ext. intros i _.
  unfold assigned_revenue, range, rate. rewrite <- Hr.
  apply (Qsum_times_rates (r ds) (fun j => a (X i j)) 0).
Qed.

Lemma revenue_conservation_witness :
  exists res, extract scenario scenario_uneven = Ok res /\
              Qsum (revenue_assigned res) == 130.
Proof.
  destruct (revenue_conservation scenario scenario_uneven (total_revenue scenario))
    as (_ & Hex).
  - reflexivity.
  - intros j Hj. simpl in Hj. below j; vm_compute; reflexivity.
  - destruct Hex as (res & Hres & Hsum); [simpl; lia | reflexivity |].
    exists res. split; [exact Hres|]. rewrite Hsum. vm_compute. reflexivity.
Defined.

Lemma sum_targets (ds : Dataset) (c : Q) :
  Qsum (map (fun i => quota ds i * c) (range (n ds))) ==
  c * Qsum (map (quota ds) (range (n ds))).
Proof.
  rewrite Qsum_map_scale_r. ring.
Qed.

Lemma gap_le_deviation (ds : Dataset) (f tg : nat -> Q) (w : nat -> Q) (total c : Q) :
  (forall i, (i < n ds)%nat -> Qabs (f i - tg i) <= w i) ->
  Qsum (map f (range (n ds))) == total ->
  Qsum (map tg (range (n ds))) == c ->
  Qabs (total - c) <= Qsum (map w (range (n ds))).
Proof.
  intros Hdev Hf Hg.
  rewrite <- Hf, <- Hg, <- Qsum_map_minus.
  apply Qle_trans with (Qsum (map (fun i => Qabs (f i - tg i)) (range (n ds)))).
  - apply (Qabs_Qsum (fun i => f i - tg i)).
  - apply Qsum_le_compat. intros i Hi. apply in_range in Hi. apply Hdev. exact Hi.
Qed.

(** X5: when the demand list has one entry per site, the deviation
    variables of a feasible assignment add up to at least the gap the
    quotas leave: sum u >= |T * (1 - sum p)| and sum v >= |R * (1 - sum p)|,
    so the objective is at least alpha and beta times these.  Quotas that
    do not add up to 1 cannot be met exactly. *)
Theorem quota_gap_bound (ds : Dataset) (prob : LpProblem) (a : assignment) :
  build ds = Ok prob ->
  length (S ds) = m ds ->
  feasible prob a ->
  let gap := 1 - Qsum (map (fun i => nth i (p ds) 0) (range (n ds))) in
  Qabs (T ds * gap) <= Qsum (map (fun i => a (U i)) (range (n ds))) /\
  Qabs (total_revenue ds * gap) <= Qsum (map (fun i => a (V i)) (range (n ds))) /\
  alpha * Qabs (T ds * gap) + beta * Qabs (total_revenue ds * gap)
    <= eval a (objective prob).
Proof.
  intros Hb Hlen Ha gap. destruct (build_Ok_inv ds prob Hb) as [_ ->].
  apply feasible_model_iff in Ha.
  assert (Hu : Qabs (T ds * gap) <= Qsum (map (fun i => a (U i)) (range (n ds)))).
  { setoid_replace (T ds * gap)
      with (T ds - T ds * Qsum (map (quota ds) (range (n ds))))
      by (unfold gap, quota; ring).
    apply (gap_le_deviation ds (assigned_tons ds a) (target_tons ds)).
    - intros i Hi. apply (deviation_bounds ds a i Hi Ha).
    - apply total_assigned; [apply (sat_demand ds a Ha) | exact Hlen].
    - apply sum_targets. }
  assert (Hv : Qabs (total_revenue ds * gap)
               <= Qsum (map (fun i => a (V i)) (range (n ds)))).
  { setoid_replace (total_revenue ds * gap)
      with (total_revenue ds - total_revenue ds * Qsum (map (quota ds) (range (n ds))))
      by (unfold gap, quota; ring).
    apply (gap_le_deviation ds (assigned_revenue ds a) (target_revenue ds)).
    - intros i Hi. apply (deviation_bounds ds a i Hi Ha).
    - apply total_assigned_revenue. apply (sat_demand ds a Ha).
    - apply sum_targets. }
  split; [exact Hu|]. split; [exact Hv|].
  cbn [model objective]. rewrite eval_objective.
  unfold alpha, beta in *. lra.
Qed.

Lemma quota_gap_bound_witness :
  0 < Qabs (T example * (1 - Qsum (map (fun i => nth i (p example) 0) (range (n example))))) /\
  alpha * Qabs (T example * (1 - Qsum (map (fun i => nth i (p example) 0) (range (n example)))))
    <= eval example_alloc (objective (model example)).
Proof.
  split; [vm_compute; reflexivity|].
  destruct (quota_gap_bound example (model example) example_alloc) as (_ & _ & Hobj).
  - vm_compute. reflexivity.
  - reflexivity.
  - exact example_alloc_feasible.
  - eapply Qle_trans; [|exact Hobj].
    rewrite <- (Qplus_0_r (alpha * _)) at 1.
    apply Qplus_le_r. vm_compute. discriminate.
Defined.

(** ** Which datasets have a feasible model *)

Lemma inject_nat_succ (k : nat) :
  inject_Z (Z.of_nat (Datatypes.S k)) == inject_Z (Z.of_nat k) + 1.
Proof.
  rewrite Nat2Z.inj_succ. unfold Z.succ. rewrite inject_Z_plus. reflexivity.
Qed.

Lemma inject_nat_pos (k : nat) : (0 < k)%nat -> 0 < inject_Z (Z.of_nat k).
Proof.
  intro H. change 0 with (inject_Z 0). rewrite <- Zlt_Qlt. lia.
Qed.

(** A sum of terms that are each 0 or between the thresholds lies between
    the thresholds times the number of nonzero terms. *)
Lemma semi_sum_bounds (f : nat -> Q) (l : list nat) :
  (forall i, In i l ->
             f i == 0 \/ (minPerAssignment <= f i /\ f i <= maxPerAssignment)) ->
  exists k, (k <= length l)%nat /\
            minPerAssignment * inject_Z (Z.of_nat k) <= Qsum (map f l) /\
            Qsum (map f l) <= maxPerAssignment * inject_Z (Z.of_nat k).
Proof.
  unfold minPerAssignment, maxPerAssignment.
  induction l as [|c l IH]; intro H.
  - exists 0%nat. simpl. rewrite Qsum_nil. repeat split; [lia | discriminate | discriminate].
  - destruct IH as (k & Hk & Hlo & Hhi); [intros; apply H; simpl; auto|].
    cbn [map length].
    destruct (H c) as [H0 | [H1 H2]]; [simpl; auto | |].
    + exists k. rewrite Qsum_cons, H0. repeat split; [lia | lra | lra].
    + exists (Datatypes.S k). rewrite Qsum_cons, inject_nat_succ.
      repeat split; [lia | lra | lra].
Qed.

Lemma Qsum_snoc (l : list Q) (e : Q) : Qsum (l ++ [e]) == Qsum l + e.
Proof.
  induction l as [|b l IHl]; cbn [app].
  - rewrite Qsum_cons, Qsum_nil. ring.
  - rewrite !Qsum_cons, IHl. ring.
Qed.

Lemma Qsum_prefix (c : Q) (k k' : nat) :
  Qsum (map (fun i => if Nat.ltb i k then c else 0) (range k')) ==
  inject_Z (Z.of_nat (Nat.min k k')) * c.
Proof.
  unfold range. induction k' as [|k' IH].
  - rewrite Nat.min_0_r. simpl. rewrite Qsum_nil. ring.
  - rewrite seq_S, map_app. cbn [map Nat.add].
    rewrite Qsum_snoc, IH.
    destruct (Nat.ltb k' k) eqn:E.
    + apply Nat.ltb_lt in E.
      rewrite (Nat.min_r k k') by lia. rewrite (Nat.min_r k (Datatypes.S k')) by lia.
      rewrite inject_nat_succ. ring.
    + apply Nat.ltb_ge in E.
      rewrite (Nat.min_l k k') by lia. rewrite (Nat.min_l k (Datatypes.S k')) by lia.
      ring.
Qed.

Lemma fits_iff (d : Q) (k : nat) :
  fits d k = true <->
  minPerAssignment * inject_Z (Z.of_nat k) <= d /\
  d <= maxPerAssignment * inject_Z (Z.of_nat k).
Proof.
  unfold fits. rewrite andb_true_iff, !Qle_bool_iff. reflexivity.
Qed.

Lemma site_takers_fits (k' : nat) (d : Q) :
  (exists k, (k <= k')%nat /\ fits d k = true) ->
  (site_takers k' d <= k')%nat /\ fits d (site_takers k' d) = true.
Proof.
  intros (k & Hk & Hfit). unfold site_takers.
  destruct (find (fits d) (range (Datatypes.S k'))) as [c|] eqn:E.
  - apply find_some in E. destruct E as [Hin Hc]. apply in_range in Hin.
    split; [lia | exact Hc].
  - exfalso. pose proof (find_none _ _ E k) as Hn.
    rewrite Hfit in Hn. discriminate Hn. apply in_range. lia.
Qed.

Section Spread.
Variable ds : Dataset.
Hypothesis Hfits : forall j, (j < m ds)%nat ->
  exists k, (k <= n ds)%nat /\ fits (demand ds j) k = true.

Lemma spread_share (j : nat) :
  (j < m ds)%nat ->
  let k := site_takers (n ds) (demand ds j) in
  (k <= n ds)%nat /\
  ((k = 0)%nat /\ demand ds j == 0 \/
   (0 < k)%nat /\
   minPerAssignment <= demand ds j / inject_Z (Z.of_nat k) /\
   demand ds j / inject_Z (Z.of_nat k) <= maxPerAssignment).
Proof.
  intros Hj k.
  destruct (site_takers_fits (n ds) (demand ds j) (Hfits j Hj)) as [Hk Hfit].
  fold k in Hk, Hfit. split; [exact Hk|].
  apply fits_iff in Hfit. destruct Hfit as [Hlo Hhi].
  destruct k as [|k0] eqn:Ek.
  - left. split; [reflexivity|].
    simpl in Hlo, Hhi. rewrite Qmult_0_r in Hlo, Hhi. apply Qle_antisym; assumption.
  - right. split; [lia|].
    assert (Hpos : 0 < inject_Z (Z.of_nat (Datatypes.S k0))) by (apply inject_nat_pos; lia).
    split.
    + apply Qle_shift_div_l; assumption.
    + apply Qle_shift_div_r; assumption.
Qed.

Lemma spread_satisfies : satisfies ds (spread ds).
Proof.
  constructor.
  - intros i j Hi Hj. unfold spread, tighten, spread_xy.
    destruct (spread_share j Hj) as [_ [[Hk _] | (Hk & Hlo & _)]].
    + rewrite Hk. simpl. apply Qle_refl.
    + destruct (Nat.ltb i _); [|apply Qle_refl].
      unfold minPerAssignment in Hlo.
      apply Qle_trans with 10; [discriminate | exact Hlo].
  - intros i j Hi Hj. unfold spread, tighten, spread_xy.
    destruct (Nat.ltb i _); [right | left]; reflexivity.
  - intros i Hi. unfold spread, tighten. apply Qabs_nonneg.
  - intros i Hi. unfold spread, tighten. apply Qabs_nonneg.
  - intros j Hj. unfold delivered.
    change (fun i => spread ds (X i j))
      with (fun i => if Nat.ltb i (site_takers (n ds) (demand ds j))
                     then demand ds j / inject_Z (Z.of_nat (site_takers (n ds) (demand ds j)))
                     else 0).
    rewrite Qsum_prefix.
    destruct (spread_share j Hj) as [Hle [[Hk Hd] | (Hk & _ & _)]].
    + rewrite Hk, Hd. simpl. ring.
    + rewrite Nat.min_l by exact Hle.
      rewrite Qmult_div_r; [reflexivity|].
      apply Qnot_eq_sym, Qlt_not_eq, inject_nat_pos. exact Hk.
  - intros i j Hi Hj. unfold spread, tighten, spread_xy.
    destruct (spread_share j Hj) as [_ [[Hk _] | (Hk & _ & Hhi)]].
    + rewrite Hk. simpl. discriminate.
    + destruct (Nat.ltb i _); [rewrite Qmult_1_r; exact Hhi | discriminate].
  - intros i j Hi Hj. unfold spread, tighten, spread_xy.
    destruct (spread_share j Hj) as [_ [[Hk _] | (Hk & Hlo & _)]].
    + rewrite Hk. simpl. discriminate.
    + destruct (Nat.ltb i _); [rewrite Qmult_1_r; exact Hlo | discriminate].
  - intros i Hi. unfold spread.
    change (assigned_tons ds (tighten ds (spread_xy ds)) i)
      with (assigned_tons ds (spread_xy ds) i).
    unfold tighten. apply Qle_Qabs.
  - intros i Hi. unfold spread.
    change (assigned_tons ds (tighten ds (spread_xy ds)) i)
      with (assigned_tons ds (spread_xy ds) i).
    unfold tighten. rewrite <- Qabs_opp. apply Qle_Qabs.
  - intros i Hi. unfold spread.
    change (assigned_revenue ds (tighten ds (spread_xy ds)) i)
      with (assigned_revenue ds (spread_xy ds) i).
    unfold tighten. apply Qle_Qabs.
  - intros i Hi. unfold spread.
    change (assigned_revenue ds (tighten ds (spread_xy ds)) i)
      with (assigned_revenue ds (spread_xy ds) i).
    unfold tighten. rewrite <- Qabs_opp. apply Qle_Qabs.
Qed.
End Spread.

(** X6: the built model has a feasible assignment exactly when every
    site's demand can be shared by some number k <= n of transporters each
    taking between 10 and 50 tons, that is 10 * k <= S[j] <= 50 * k (k = 0
    for a site without demand); the rates and quotas play no part.  When
    the condition holds, sharing every site evenly among the least such
    number of transporters is feasible. *)
Theorem feasibility_criterion (ds : Dataset) (prob : LpProblem) :
  build ds = Ok prob ->
  let shareable :=
    forall j, (j < m ds)%nat ->
      exists k, (k <= n ds)%nat /\
                minPerAssignment * inject_Z (Z.of_nat k) <= nth j (S ds) 0 /\
                nth j (S ds) 0 <= maxPerAssignment * inject_Z (Z.of_nat k) in
  ((exists a, feasible prob a) <-> shareable) /\
  (shareable -> feasible prob (spread ds)).
Proof.
  intros Hb shareable. destruct (build_Ok_inv ds prob Hb) as [_ ->].
  assert (Hback : shareable -> feasible (model ds) (spread ds)).
  { intro Hsh. apply feasible_model_iff. apply spread_satisfies.
    intros j Hj. destruct (Hsh j Hj) as (k & Hk & Hlo & Hhi).
    exists k. split; [exact Hk|]. apply fits_iff. split; assumption. }
  split; [|exact Hback].
  split.
  - intros (a & Ha) j Hj. apply feasible_model_iff in Ha.
    destruct (semi_sum_bounds (fun i => a (X i j)) (range (n ds))) as (k & Hk & Hlo & Hhi).
    + intros i Hi. apply in_range in Hi.
      destruct (semi_continuous ds a i j Ha Hi Hj) as [[_ Hx] | [_ Hx]]; auto.
    + rewrite length_range in Hk. exists k. split; [exact Hk|].
      pose proof (sat_demand ds a Ha j Hj) as Hd. unfold delivered, demand in Hd.
      rewrite Hd in Hlo, Hhi. split; assumption.
  - intro Hsh. exists (spread ds). apply Hback. exact Hsh.
Qed.

Lemma feasibility_criterion_witness :
  feasible (model scenario) (spread scenario) /\
  ~ (exists a, feasible (model (mkDataset 1 3 [5] [2] [1; 0; 0])) a).
Proof.
  split.
  - destruct (feasibility_criterion scenario (model scenario)) as [_ Hsp]; [reflexivity|].
    apply Hsp. intros j Hj. simpl in Hj. exists 1%nat.
    below j; (split; [simpl; lia | split; vm_compute; discriminate]).
  - intro Hex.
    destruct (feasibility_criterion (mkDataset 1 3 [5] [2] [1; 0; 0])
                                    (model (mkDataset 1 3 [5] [2] [1; 0; 0])))
      as [[Hfwd _] _]; [reflexivity|].
    destruct (Hfwd Hex 0%nat) as (k & Hk & Hlo & Hhi); [simpl; lia|].
    simpl in Hk, Hlo, Hhi. unfold minPerAssignment, maxPerAssignment in *.
    destruct k as [|k].
    + vm_compute in Hhi. apply Hhi. reflexivity.
    + rewrite inject_nat_succ in Hlo.
      assert (0 <= inject_Z (Z.of_nat k))
        by (change 0 with (inject_Z 0); rewrite <- Zle_Qle; lia).
      lra.
Defined.

(** ** Outcomes of extraction and of the whole script *)

Lemma mul_broadcast_outcome (ds : Dataset) (a : list (list Q)) :
  (broadcastable ds ->
   exists prod, mul_broadcast a (m ds) (r ds) = Ok prod /\ length prod = length a) /\
  (~ broadcastable ds -> mul_broadcast a (m ds) (r ds) = Raise ValueError).
Proof.
  unfold broadcastable, mul_broadcast.
  destruct (Nat.eqb (m ds) (length (r ds))) eqn:E1;
    [|destruct (Nat.eqb (length (r ds)) 1) eqn:E2;
      [|destruct (Nat.eqb (m ds) 1) eqn:E3]].
  - split; [|apply Nat.eqb_eq in E1; intro H; exfalso; apply H; auto].
    intros _. eexists. split; [reflexivity | apply length_map].
  - split; [|apply Nat.eqb_eq in E2; intro H; exfalso; apply H; auto].
    intros _. eexists. split; [reflexivity | apply length_map].
  - split; [|apply Nat.eqb_eq in E3; intro H; exfalso; apply H; auto].
    intros _. eexists. split; [reflexivity | apply length_map].
  - apply Nat.eqb_neq in E1, E2, E3.
    split; [|reflexivity]. intros [H | [H | H]]; congruence.
Qed.

Lemma length_x_sol (ds : Dataset) (value : assignment) :
  length (x_sol ds value) = n ds /\
  Forall (fun row => length row = m ds) (x_sol ds value).
Proof.
  unfold x_sol. split.
  - rewrite length_map. apply length_range.
  - apply Forall_map, Forall_forall. intros i _. rewrite length_map. apply length_range.
Qed.

(** X7: what extraction returns for any raw values.  Without transporters
    the array is one-dimensional and [sum(axis=1)] raises AxisError; with
    transporters but rates NumPy cannot broadcast against the m columns
    (len(r) is neither m nor 1, and m is not 1) the product raises
    ValueError; otherwise the result has n rows of m entries, n tons and n
    revenues. *)
Theorem extract_outcome (ds : Dataset) (value : assignment) :
  (n ds = 0%nat -> extract ds value = Raise AxisError) /\
  ((0 < n ds)%nat -> ~ broadcastable ds -> extract ds value = Raise ValueError) /\
  ((0 < n ds)%nat -> broadcastable ds ->
   exists res,
     extract ds value = Ok res /\
     length (res_x_sol res) = n ds /\
     Forall (fun row => length row = m ds) (res_x_sol res) /\
     length (tons_assigned res) = n ds /\
     length (revenue_assigned res) = n ds).
Proof.
  destruct (length_x_sol ds value) as [Hlen Hrows].
  split; [|split].
  - intro Hn. unfold extract, x_sol. rewrite Hn. reflexivity.
  - intros Hn Hb. unfold extract.
    rewrite sum_axis1_ok by (apply x_sol_nonempty; exact Hn). cbn [bind].
    rewrite (proj2 (mul_broadcast_outcome ds (x_sol ds value)) Hb). reflexivity.
  - intros Hn Hb. unfold extract.
    rewrite sum_axis1_ok by (apply x_sol_nonempty; exact Hn). cbn [bind].
    destruct (proj1 (mul_broadcast_outcome ds (x_sol ds value)) Hb) as (prod & -> & Hp).
    cbn [bind].
    rewrite sum_axis1_ok
      by (intro H; subst prod; simpl in Hp; rewrite Hlen in Hp; lia).
    cbn [bind]. eexists. split; [reflexivity|].
    cbn [res_x_sol tons_assigned revenue_assigned].
    rewrite !length_map. repeat split; try assumption. congruence.
Qed.

Lemma extract_outcome_witness :
  extract (mkDataset 2 0 [5; 7] [2; 3] []) scenario_even = Raise AxisError /\
  extract long_rates scenario_even = Raise ValueError /\
  exists res, extract scenario scenario_even = Ok res /\ length (tons_assigned res) = 2%nat.
Proof.
  split; [|split].
  - apply extract_outcome. reflexivity.
  - apply extract_outcome; [simpl; lia|].
    unfold broadcastable. simpl. lia.
  - destruct (extract_outcome scenario scenario_even) as (_ & _ & H).
    destruct H as (res & Hres & _ & _ & Ht & _); [simpl; lia | left; reflexivity |].
    exists res. split; [exact Hres | exact Ht].
Defined.

(** X8: how the whole script ends, whatever the solver returns.  When a
    list is too short for a subscript the script raises IndexError and the
    solver is not called.  When the model is built the solver is called
    once, on that model, and extraction decides afterwards: without
    transporters it raises AxisError, with rates that cannot be broadcast
    it raises ValueError, and otherwise the script returns the allocation
    read from the solver's x values, whatever the status. *)
Theorem script_outcome (solver : Solver) (ds : Dataset) :
  ((length (S ds) < m ds \/ length (r ds) < m ds \/ length (p ds) < n ds)%nat ->
   run solver ds = ([], Raise IndexError)) /\
  (forall prob, build ds = Ok prob ->
     snd (run solver ds) = script solver ds /\
     (n ds = 0%nat -> run solver ds = ([Solve prob], Raise AxisError)) /\
     ((0 < n ds)%nat -> ~ broadcastable ds ->
      run solver ds = ([Solve prob], Raise ValueError)) /\
     ((0 < n ds)%nat -> broadcastable ds ->
      exists res, run solver ds = ([Solve prob], Ok res) /\
                  res_x_sol res = x_sol ds (snd (solver prob)))).
Proof.
  split.
  - intro H. apply not_long_enough_iff in H.
    rewrite run_unfold, (build_raises ds H). reflexivity.
  - intros prob Hb. rewrite run_unfold, script_unfold, Hb. cbn [snd].
    split; [reflexivity|]. split; [|split].
    + intro Hn. unfold extract, x_sol. rewrite Hn. reflexivity.
    + intros Hn Hbr. unfold extract.
      rewrite sum_axis1_ok by (apply x_sol_nonempty; exact Hn). cbn [bind].
      rewrite (proj2 (mul_broadcast_outcome ds _) Hbr). reflexivity.
    + intros Hn Hbr.
      destruct (length_x_sol ds (snd (solver prob))) as [Hlen _].
      unfold extract.
      rewrite sum_axis1_ok by (apply x_sol_nonempty; exact Hn). cbn [bind].
      destruct (proj1 (mul_broadcast_outcome ds (x_sol ds (snd (solver prob)))) Hbr)
        as (prod & -> & Hp).
      cbn [bind].
      rewrite sum_axis1_ok
        by (intro H; subst prod; simpl in Hp; rewrite Hlen in Hp; lia).
      cbn [bind]. eexists. split; reflexivity.
Qed.

Lemma script_outcome_witness :
  run (fun _ => (LpStatusOptimal, scenario_even)) short_demands = ([], Raise IndexError) /\
  run (fun _ => (LpStatusOptimal, scenario_even)) long_rates
    = ([Solve (model long_rates)], Raise ValueError) /\
  exists res, run (fun _ => (LpStatusInfeasible, scenario_even)) scenario
              = ([Solve (model scenario)], Ok res).
Proof.
  split; [|split].
  - apply script_outcome. simpl. lia.
  - apply script_outcome; [reflexivity | simpl; lia |].
    unfold broadcastable. simpl. lia.
  - destruct (script_outcome (fun _ => (LpStatusInfeasible, scenario_even)) scenario)
      as (_ & H).
    destruct (H (model scenario)) as (_ & _ & _ & Hok); [reflexivity|].
    destruct Hok as (res & Hres & _); [simpl; lia | left; reflexivity |].
    exists res. exact Hres.
Defined.

Lemma entry_x_sol (ds : Dataset) (value : assignment) (res : AllocationResult) (i j : nat) :
  res_x_sol res = x_sol ds value ->
  (i < n ds)%nat -> (j < m ds)%nat ->
  entry res i j = value (X i j).
Proof.
  intros Hres Hi Hj. unfold entry. rewrite Hres.
  rewrite (nth_error_nth _ _ [] (nth_error_x_sol ds value i Hi)).
  apply nth_error_nth.
  apply (nth_error_map_range (fun j => value (X i j))). exact Hj.
Qed.

(** X9: when the solver leaves a feasible assignment of the problem it was
    given in the variables, the allocation the script reports serves every
    site's demand exactly, every entry is 0 or between 10 and 50 tons, and
    each transporter's reported tons differ from its target p[i] * T by at
    most the value of u[i]. *)
Theorem sound_solver_report (solver : Solver) (ds : Dataset) (prob : LpProblem)
        (res : AllocationResult) :
  build ds = Ok prob ->
  feasible prob (snd (solver prob)) ->
  script solver ds = Ok res ->
  (forall j, (j < m ds)%nat ->
     Qsum (map (fun i => entry res i j) (range (n ds))) == nth j (S ds) 0) /\
  (forall i j, (i < n ds)%nat -> (j < m ds)%nat ->
     entry res i j == 0 \/
     (minPerAssignment <= entry res i j /\ entry res i j <= maxPerAssignment)) /\
  (forall i, (i < n ds)%nat ->
     exists ti, nth_error (tons_assigned res) i = Some ti /\
                Qabs (ti - nth i (p ds) 0 * T ds) <= snd (solver prob) (U i)).
Proof.
  intros Hb Hfeas Hs.
  rewrite script_unfold, Hb in Hs.
  destruct (build_Ok_inv ds prob Hb) as [_ ->].
  apply feasible_model_iff in Hfeas.
  destruct (extract_Ok_inv ds _ res Hs) as [Hx Ht].
  set (value := snd (solver (model ds))) in *.
  split; [|split].
  - intros j Hj.
    rewrite (Qsum_map_ext _ (fun i => value (X i j))).
    + apply (sat_demand ds value Hfeas j Hj).
    + intros i Hi. apply in_range in Hi.
      rewrite (entry_x_sol ds value res i j Hx Hi Hj). reflexivity.
  - intros i j Hi Hj. rewrite (entry_x_sol ds value res i j Hx Hi Hj).
    destruct (semi_continuous ds value i j Hfeas Hi Hj) as [[_ H] | [_ H]]; auto.
  - intros i Hi. rewrite Ht.
    exists (Qsum (map (fun j => value (X i j)) (range (m ds)))). split.
    + rewrite nth_error_map, (nth_error_x_sol ds value i Hi). reflexivity.
    + apply (deviation_bounds ds value i Hi Hfeas).
Qed.

Lemma sound_solver_report_witness :
  exists res,
    script (fun _ => (LpStatusOptimal, scenario_uneven)) scenario = Ok res /\
    entry res 0 1 + entry res 1 1 == 30 /\
    (entry res 1 0 == 0 \/ (minPerAssignment <= entry res 1 0 /\
                            entry res 1 0 <= maxPerAssignment)).
Proof.
  pose (res := mkResult (x_sol scenario scenario_uneven)
                        (map Qsum (x_sol scenario scenario_uneven))
                        (map Qsum (map (times_rates (r scenario))
                                       (x_sol scenario scenario_uneven)))).
  assert (Hres : script (fun _ => (LpStatusOptimal, scenario_uneven)) scenario = Ok res).
  { rewrite script_unfold. apply (extract_ok scenario scenario_uneven); [simpl; lia | reflexivity]. }
  exists res. split; [exact Hres|].
  destruct (sound_solver_report (fun _ => (LpStatusOptimal, scenario_uneven))
                                scenario (model scenario) res)
    as (Hcov & Hsemi & _);
    [reflexivity | exact scenario_uneven_feasible | exact Hres |].
  split.
  - pose proof (Hcov 1%nat) as H1. simpl in H1.
    rewrite <- H1 by lia.
    unfold range. cbn [seq map]. rewrite !Qsum_cons, Qsum_nil. ring.
  - apply Hsemi; simpl; lia.
Defined.

(** X10: with a single site (m = 1) NumPy broadcasts the one column of
    x_sol against all of r, so the revenue the script reports for a
    transporter is its tons times the sum of every entry of r, not only
    r[0], the one rate the targets use. *)
Theorem single_site_revenue (ds : Dataset) (value : assignment) :
  m ds = 1%nat ->
  (0 < n ds)%nat ->
  exists res,
    extract ds value = Ok res /\
    forall i, (i < n ds)%nat ->
      exists ri, nth_error (revenue_assigned res) i = Some ri /\
                 ri == value (X i 0) * Qsum (r ds).
Proof.
  intros Hm Hn. unfold extract.
  rewrite sum_axis1_ok by (apply x_sol_nonempty; exact Hn). cbn [bind].
  assert (Hrow : forall i, (i < n ds)%nat ->
                           nth_error (x_sol ds value) i = Some [value (X i 0)]).
  { intros i Hi. rewrite (nth_error_x_sol ds value i Hi), Hm. reflexivity. }
  assert (Hne : forall (f : list Q -> list Q), map f (x_sol ds value) <> []).
  { intros f H. apply map_eq_nil in H. revert H. apply x_sol_nonempty. exact Hn. }
  unfold mul_broadcast. rewrite Hm.
  destruct (r ds) as [|r0 [|r1 rv]] eqn:Er; cbn [length Nat.eqb bind].
  - rewrite sum_axis1_ok by apply Hne. cbn [bind].
    eexists. split; [reflexivity|]. cbn [revenue_assigned].
    intros i Hi. rewrite !nth_error_map, (Hrow i Hi). cbn [option_map map hd].
    eexists. split; [reflexivity|]. rewrite Qsum_nil. ring.
  - rewrite sum_axis1_ok by apply Hne. cbn [bind].
    eexists. split; [reflexivity|]. cbn [revenue_assigned].
    intros i Hi. rewrite !nth_error_map, (Hrow i Hi). cbn [option_map map combine].
    eexists. split; [reflexivity|]. rewrite !Qsum_cons, Qsum_nil. ring.
  - rewrite sum_axis1_ok by apply Hne. cbn [bind].
    eexists. split; [reflexivity|]. cbn [revenue_assigned].
    intros i Hi. rewrite !nth_error_map, (Hrow i Hi). cbn [option_map hd].
    eexists. split; [reflexivity|].
    rewrite (Qsum_map_scale_l (value (X i 0)) (fun b => b)), map_id. reflexivity.
Qed.

Lemma single_site_revenue_witness :
  exists res,
    extract (mkDataset 1 1 [20] [2; 3; 4] [1]) scenario_uneven = Ok res /\
    exists ri, nth_error (revenue_assigned res) 0 = Some ri /\ ri == 180.
Proof.
  destruct (single_site_revenue (mkDataset 1 1 [20] [2; 3; 4] [1]) scenario_uneven)
    as (res & Hres & Hrev); [reflexivity | simpl; lia |].
  exists res. split; [exact Hres|].
  destruct (Hrev 0%nat) as (ri & Hri & Heq); [simpl; lia|].
  exists ri. split; [exact Hri|]. rewrite Heq. vm_compute. reflexivity.
Defined.

(** ** Variable names *)

Lemma string_of_uint_no_underscore (d : uint) :
  no_underscore (NilEmpty.string_of_uint d).
Proof.
  induction d; simpl; auto; split; auto; discriminate.
Qed.

Lemma str_inj (i j : nat) : str i = str j -> i = j.
Proof.
  unfold str. intro H.
  assert (Hu : Nat.to_uint i = Nat.to_uint j).
  { pose proof (NilEmpty.usu (Nat.to_uint i)) as Hi.
    pose proof (NilEmpty.usu (Nat.to_uint j)) as Hj.
    rewrite H in Hi. congruence. }
  rewrite <- (Unsigned.of_to i), <- (Unsigned.of_to j), Hu. reflexivity.
Qed.

(** Two names split at the same underscore. *)
Lemma append_underscore_inj (s1 s2 t1 t2 : string) :
  no_underscore s1 -> no_underscore s2 ->
  String.append s1 (String "_" t1) = String.append s2 (String "_" t2) ->
  s1 = s2 /\ t1 = t2.
Proof.
  revert s2. induction s1 as [|c s1 IH]; intros [|c' s2] H1 H2 H; simpl in *.
  - injection H as ->. auto.
  - injection H as Hc _. destruct H2 as [H2 _]. congruence.
  - injection H as Hc _. destruct H1 as [H1 _]. congruence.
  - injection H as -> H. destruct H1 as [_ H1]. destruct H2 as [_ H2].
    destruct (IH s2 H1 H2 H) as [-> ->]. auto.
Qed.

Lemma var_name_inj (w1 w2 : var) : var_name w1 = var_name w2 -> w1 = w2.
Proof.
  destruct w1 as [i j | i j | i | i], w2 as [i' j' | i' j' | i' | i'];
    simpl; intro H; try discriminate H.
  - injection H as H.
    apply append_underscore_inj in H; try apply string_of_uint_no_underscore.
    destruct H as [Hi Hj]. apply str_inj in Hi. apply str_inj in Hj. congruence.
  - injection H as H.
    apply append_underscore_inj in H; try apply string_of_uint_no_underscore.
    destruct H as [Hi Hj]. apply str_inj in Hi. apply str_inj in Hj. congruence.
  - injection H as H. apply str_inj in H. congruence.
  - injection H as H. apply str_inj in H. congruence.
Qed.

Lemma NoDup_map_inj {A B : Type} (f : A -> B) (l : list A) :
  (forall c c', f c = f c' -> c = c') -> NoDup l -> NoDup (map f l).
Proof.
  intros Hinj Hnd. induction Hnd as [|c l Hc Hnd IH]; simpl; constructor; [|exact IH].
  intro Hin. apply in_map_iff in Hin. destruct Hin as (c' & Heq & Hin).
  apply Hinj in Heq. subst c'. contradiction.
Qed.

Lemma NoDup_rows {A : Type} (f : nat -> nat -> A) (k k' : nat) :
  (forall i j i' j', f i j = f i' j' -> i = i' /\ j = j') ->
  NoDup (concat (map (fun i => map (fun j => f i j) (range k')) (range k))).
Proof.
  intro Hinj. unfold range. generalize 0%nat at 2.
  induction k as [|k IH]; intro s; cbn [seq map concat]; [constructor|].
  apply NoDup_app.
  - apply NoDup_map_inj; [|apply seq_NoDup].
    intros j j' H. apply Hinj in H. apply H.
  - apply IH.
  - intros c Hc Hin.
    apply in_map_iff in Hc. destruct Hc as (j & <- & _).
    apply in_concat in Hin. destruct Hin as (l & Hl & Hin).
    apply in_map_iff in Hl. destruct Hl as (i' & <- & Hi').
    apply in_map_iff in Hin. destruct Hin as (j' & Heq & _).
    apply Hinj in Heq. apply in_seq in Hi'. lia.
Qed.

Lemma names_NoDup (ds : Dataset) : NoDup (map name (variables (model ds))).
Proof.
  unfold model. cbn [variables]. unfold x, y, u, v.
  rewrite !map_app, !concat_map, !map_map.
  assert (Hx : NoDup (concat (map (fun i => map name (map (fun j => continuous_var (X i j))
                                                          (range (m ds)))) (range (n ds))))).
  { rewrite (map_ext _ (fun i => map (fun j => X i j) (range (m ds))))
      by (intro i; apply map_map).
    apply NoDup_rows. intros i j i' j' H. injection H as -> ->. auto. }
  assert (Hy : NoDup (concat (map (fun i => map name (map (fun j => binary_var (Y i j))
                                                          (range (m ds)))) (range (n ds))))).
  { rewrite (map_ext _ (fun i => map (fun j => Y i j) (range (m ds))))
      by (intro i; apply map_map).
    apply NoDup_rows. intros i j i' j' H. injection H as -> ->. auto. }
  assert (Hu : NoDup (map (fun i => name (continuous_var (U i))) (range (n ds)))).
  { apply NoDup_map_inj; [|apply seq_NoDup]. intros i i' H. injection H as ->. reflexivity. }
  assert (Hv : NoDup (map (fun i => name (continuous_var (V i))) (range (n ds)))).
  { apply NoDup_map_inj; [|apply seq_NoDup]. intros i i' H. injection H as ->. reflexivity. }
  assert (Hin_rows : forall (g : nat -> nat -> LpVariable) (c : var),
            In c (concat (map (fun i => map name (map (fun j => g i j) (range (m ds))))
                              (range (n ds)))) ->
            exists i j, c = name (g i j)).
  { intros g c Hc. apply in_concat in Hc. destruct Hc as (l & Hl & Hc).
    apply in_map_iff in Hl. destruct Hl as (i & <- & _).
    rewrite map_map in Hc. apply in_map_iff in Hc. destruct Hc as (j & <- & _). eauto. }
  repeat apply NoDup_app; try assumption.
  - intros c Hc Hin. apply in_map_iff in Hc. destruct Hc as (i & <- & _).
    apply in_map_iff in Hin. destruct Hin as (i' & H & _). discriminate H.
  - intros c Hc Hin. apply Hin_rows in Hc. destruct Hc as (i & j & ->).
    apply in_app_iff in Hin.
    destruct Hin as [Hin | Hin]; apply in_map_iff in Hin;
      destruct Hin as (i' & H & _); discriminate H.
  - intros c Hc Hin. apply Hin_rows in Hc. destruct Hc as (i & j & ->).
    apply in_app_iff in Hin. destruct Hin as [Hin | Hin].
    + apply Hin_rows in Hin. destruct Hin as (i' & j' & H). discriminate H.
    + apply in_app_iff in Hin.
      destruct Hin as [Hin | Hin]; apply in_map_iff in Hin;
        destruct Hin as (i' & H & _); discriminate H.
Qed.

(** X11: the names the script gives its variables ([x_i_j], [y_i_j],
    [u_i], [v_i]) identify them: different variables never share a name,
    and the names of the variables of a built model are pairwise
    different. *)
Theorem var_names_distinct (ds : Dataset) (prob : LpProblem) :
  build ds = Ok prob ->
  (forall w1 w2 : var, w1 <> w2 -> var_name w1 <> var_name w2) /\
  NoDup (map (fun lv => var_name (name lv)) (variables prob)).
Proof.
  intro Hb. destruct (build_Ok_inv ds prob Hb) as [_ ->].
  split.
  - intros w1 w2 Hne H. apply Hne. apply var_name_inj. exact H.
  - rewrite <- (map_map name var_name).
    apply NoDup_map_inj; [exact var_name_inj | apply names_NoDup].
Qed.

Lemma var_names_distinct_witness :
  var_name (X 1 11) = "x_1_11"%string /\
  var_name (X 11 1) = "x_11_1"%string /\
  var_name (X 1 11) <> var_name (X 11 1) /\
  NoDup (map (fun lv => var_name (name lv)) (variables (model example))).
Proof.
  destruct (var_names_distinct example (model example)) as [Hne Hnd].
  - vm_compute. reflexivity.
  - split; [reflexivity|]. split; [reflexivity|].
    split; [apply Hne; discriminate | exact Hnd].
Defined.

(** ** Indicators count participants *)

Lemma linking_sum (l : list nat) (xv yv : nat -> Q) :
  (forall i, In i l -> minPerAssignment * yv i <= xv i /\ xv i <= maxPerAssignment * yv i) ->
  minPerAssignment * Qsum (map yv l) <= Qsum (map xv l) /\
  Qsum (map xv l) <= maxPerAssignment * Qsum (map yv l).
Proof.
  intro H. rewrite <- !Qsum_map_scale_l.
  split; apply Qsum_le_compat; intros i Hi; apply (H i Hi).
Qed.

(** X12: in a feasible assignment the indicators of a site add up to the
    number of transporters serving it, and the site's demand lies between
    10 and 50 times that number; likewise a transporter's tons lie between
    10 and 50 times the number of sites it serves. *)
Theorem participants_bound (ds : Dataset) (prob : LpProblem) (a : assignment) :
  build ds = Ok prob ->
  feasible prob a ->
  (forall j, (j < m ds)%nat ->
     let k := Qsum (map (fun i => a (Y i j)) (range (n ds))) in
     minPerAssignment * k <= nth j (S ds) 0 /\ nth j (S ds) 0 <= maxPerAssignment * k) /\
  (forall i, (i < n ds)%nat ->
     let k := Qsum (map (fun j => a (Y i j)) (range (m ds))) in
     minPerAssignment * k <= Qsum (map (fun j => a (X i j)) (range (m ds))) /\
     Qsum (map (fun j => a (X i j)) (range (m ds))) <= maxPerAssignment * k).
Proof.
  intros Hb Ha. destruct (build_Ok_inv ds prob Hb) as [_ ->].
  apply feasible_model_iff in Ha. split.
  - intros j Hj k.
    pose proof (sat_demand ds a Ha j Hj) as Hd. unfold delivered, demand in Hd.
    rewrite <- Hd. apply linking_sum.
    intros i Hi. apply in_range in Hi.
    split; [apply (sat_lower ds a Ha i j Hi Hj) | apply (sat_upper ds a Ha i j Hi Hj)].
  - intros i Hi k. apply linking_sum.
    intros j Hj. apply in_range in Hj.
    split; [apply (sat_lower ds a Ha i j Hi Hj) | apply (sat_upper ds a Ha i j Hi Hj)].
Qed.

Lemma participants_bound_witness :
  minPerAssignment * (scenario_uneven (Y 0 1) + scenario_uneven (Y 1 1)) <= 30 /\
  30 <= maxPerAssignment * (scenario_uneven (Y 0 1) + scenario_uneven (Y 1 1)).
Proof.
  destruct (participants_bound scenario (model scenario) scenario_uneven) as [Hs _];
    [reflexivity | exact scenario_uneven_feasible |].
  destruct (Hs 1%nat) as [Hlo Hhi]; [simpl; lia|].
  split.
  - eapply Qle_trans; [|exact Hlo]. vm_compute. discriminate.
  - eapply Qle_trans; [exact Hhi|]. vm_compute. discriminate.
Defined.

(** ** Entries beyond the first m and n *)

Lemma firstn_nth_eq (l l' : list Q) (k j : nat) :
  firstn k l = firstn k l' -> (j < k)%nat -> nth j l 0 = nth j l' 0.
Proof.
  intros H Hj.
  pose proof (nth_firstn k l j 0) as H1. pose proof (nth_firstn k l' j 0) as H2.
  apply Nat.ltb_lt in Hj. rewrite Hj in H1, H2. rewrite <- H1, <- H2, H. reflexivity.
Qed.

Lemma firstn_length_le (l l' : list Q) (k : nat) :
  firstn k l = firstn k l' -> (k <= length l)%nat -> (k <= length l')%nat.
Proof.
  intros H Hk. apply (f_equal (@length Q)) in H. rewrite !length_firstn in H. lia.
Qed.

Lemma model_ignores_surplus (m0 n0 : nat) (S0 r0 r1 p0 p1 : list Q) :
  firstn m0 r0 = firstn m0 r1 ->
  firstn n0 p0 = firstn n0 p1 ->
  model (mkDataset m0 n0 S0 r0 p0) = model (mkDataset m0 n0 S0 r1 p1).
Proof.
  intros Hr Hp.
  assert (Hrate : forall j, In j (range m0) -> nth j r0 0 = nth j r1 0).
  { intros j Hj. apply in_range in Hj. apply (firstn_nth_eq r0 r1 m0 j Hr Hj). }
  assert (Hquota : forall i, In i (range n0) -> nth i p0 0 = nth i p1 0).
  { intros i Hi. apply in_range in Hi. apply (firstn_nth_eq p0 p1 n0 i Hp Hi). }
  assert (HR : total_revenue (mkDataset m0 n0 S0 r0 p0)
               = total_revenue (mkDataset m0 n0 S0 r1 p1)).
  { unfold total_revenue, demand, rate. cbn [m S r]. f_equal.
    apply map_ext_in. intros j Hj. rewrite (Hrate j Hj). reflexivity. }
  unfold model. f_equal. f_equal. f_equal. f_equal.
  - f_equal. apply map_ext_in. intros i Hi.
    unfold target_tons, quota. cbn [p]. rewrite (Hquota i Hi). reflexivity.
  - f_equal. apply map_ext_in. intros i Hi.
    assert (He : revenue_expr (mkDataset m0 n0 S0 r0 p0) i
                 = revenue_expr (mkDataset m0 n0 S0 r1 p1) i).
    { unfold revenue_expr, rate. cbn [m r]. f_equal.
      apply map_ext_in. intros j Hj. rewrite (Hrate j Hj). reflexivity. }
    unfold target_revenue, quota. cbn [p]. rewrite He, HR, (Hquota i Hi). reflexivity.
Qed.

(** X13: model building reads only [r[0..m-1]] and [p[0..n-1]]: two
    datasets with the same m, n and demands whose rates agree on the first
    m entries and whose quotas agree on the first n entries build the same
    model, or both fail. *)
Theorem build_ignores_surplus (m0 n0 : nat) (S0 r0 r1 p0 p1 : list Q) :
  firstn m0 r0 = firstn m0 r1 ->
  firstn n0 p0 = firstn n0 p1 ->
  build (mkDataset m0 n0 S0 r0 p0) = build (mkDataset m0 n0 S0 r1 p1).
Proof.
  intros Hr Hp.
  assert (Hiff : forall ra rb pa pb,
            firstn m0 ra = firstn m0 rb -> firstn n0 pa = firstn n0 pb ->
            long_enough (mkDataset m0 n0 S0 ra pa) -> long_enough (mkDataset m0 n0 S0 rb pb)).
  { intros ra rb pa pb Hra Hpa (H1 & H2 & H3). cbn [m n S r p] in *.
    repeat split; cbn [m n S r p]; [exact H1 | |].
    - apply (firstn_length_le ra rb m0 Hra H2).
    - apply (firstn_length_le pa pb n0 Hpa H3). }
  destruct (le_lt_dec m0 (length S0)) as [HS|HS];
    [destruct (le_lt_dec m0 (length r0)) as [Hr0|Hr0];
     [destruct (le_lt_dec n0 (length p0)) as [Hp0|Hp0] | ] | ].
  - assert (HL : long_enough (mkDataset m0 n0 S0 r0 p0)) by (repeat split; assumption).
    rewrite (build_ok _ HL), (build_ok _ (Hiff _ _ _ _ Hr Hp HL)).
    f_equal. apply model_ignores_surplus; assumption.
  - rewrite !build_raises; [reflexivity | |].
    + intro HL. apply (Hiff _ _ _ _ (eq_sym Hr) (eq_sym Hp)) in HL.
      destruct HL as (_ & _ & H3). cbn [n p] in H3. lia.
    + intros (_ & _ & H3). cbn [n p] in H3. lia.
  - rewrite !build_raises; [reflexivity | |].
    + intro HL. apply (Hiff _ _ _ _ (eq_sym Hr) (eq_sym Hp)) in HL.
      destruct HL as (_ & H2 & _). cbn [m r] in H2. lia.
    + intros (_ & H2 & _). cbn [m r] in H2. lia.
  - rewrite !build_raises; [reflexivity | |].
    + intros (H1 & _ & _). cbn [m S] in H1. lia.
    + intros (H1 & _ & _). cbn [m S] in H1. lia.
Qed.

Lemma build_ignores_surplus_witness :
  build negative = build (mkDataset 2 1 [-5; 7] [-2; 3; 9] [1]).
Proof.
  apply (build_ignores_surplus 2 1 [-5; 7] [-2; 3] [-2; 3; 9] [1; 1] [1]); reflexivity.
Defined.

Lemma Qsum_app (l1 l2 : list Q) : Qsum (l1 ++ l2) == Qsum l1 + Qsum l2.
Proof.
  induction l1 as [|c l1 IH]; cbn [app].
  - rewrite Qsum_nil. ring.
  - rewrite !Qsum_cons, IH. ring.
Qed.

Lemma Qsum_firstn (l : list Q) (k : nat) :
  (k <= length l)%nat ->
  Qsum (firstn k l) == Qsum (map (fun j => nth j l 0) (range k)).
Proof.
  intro Hk. rewrite (Qsum_nth_range (firstn k l)).
  rewrite length_firstn, Nat.min_l by exact Hk.
  apply Qsum_map_ext. intros j Hj. apply in_range in Hj.
  rewrite nth_firstn. apply Nat.ltb_lt in Hj. rewrite Hj. reflexivity.
Qed.

(** X14: T is the sum of the whole demand list (line 18) while the model
    covers only the first m sites.  With surplus demand entries every
    assignment that satisfies the demand constraints assigns
    T - sum(S[m:]) tons in total, so the tonnage targets p[i] * T are set
    against a total the model cannot deliver. *)
Theorem tonnage_with_surplus_demands (ds : Dataset) (a : assignment) :
  (m ds <= length (S ds))%nat ->
  (forall j, (j < m ds)%nat -> holds a (demand_constraint ds (nth j (S ds) 0) j)) ->
  Qsum (map (fun i => Qsum (map (fun j => a (X i j)) (range (m ds)))) (range (n ds)))
    == T ds - Qsum (skipn (m ds) (S ds)).
Proof.
  intros Hm Hcov.
  pose proof (coverage_delivered ds a Hcov) as Hd.
  rewrite (Qsum_exchange (fun i j => a (X i j))).
  rewrite (Qsum_map_ext _ (demand ds)) by (intros j Hj; apply in_range in Hj; apply (Hd j Hj)).
  unfold demand. rewrite <- (Qsum_firstn (S ds) (m ds) Hm).
  unfold T. rewrite <- (firstn_skipn (m ds) (S ds)) at 2.
  rewrite Qsum_app. ring.
Qed.

Lemma tonnage_with_surplus_demands_witness :
  T (mkDataset 1 1 [20; 30] [2] [1]) == 50 /\
  Qsum (map (fun i => Qsum (map (fun j => scenario_uneven (X i j)) (range 1))) (range 1))
    == 20.
Proof.
  split; [vm_compute; reflexivity|].
  pose proof (tonnage_with_surplus_demands (mkDataset 1 1 [20; 30] [2] [1]) scenario_uneven)
    as H.
  cbn [m n S] in H. rewrite H.
  - vm_compute. reflexivity.
  - simpl. lia.
  - intros j Hj. below j. vm_compute. reflexivity.
Defined.
